(** * Nodisan CLI: topic registry, topic migrator and container lifecycle

    A shallow embedding of the command handlers of [src/index.js]
    ([kafka:create], [kafka:start], [kafka:topics], [kafka:migrate],
    [make:token]) and of [toPascalCase], with the properties of the
    specification that concern them and further properties of the code.

    Modelling conventions.
    - A JavaScript string is the sequence of its UTF-16 code units.
    - A file ([topics.txt], [.env], [token(deleteMe).txt]) is modelled by
      [option jsstring]: [None] when the file is absent, [Some content] when
      it is a readable text file, [content] being what reading it as UTF-8
      gives; reading and writing do not fail.
    - [execPromise] is an oracle over an abstract state of the outside world
      (the container runtime and the broker); every call is recorded in the
      trace of the handler, together with what is printed on the console.
    - [crypto.randomBytes] is an input of [make:token]: the bytes drawn.
    - [toUpperCase] and [toLowerCase] are parameters of [toPascalCase],
      known on ASCII strings only.
    - [chalk] only colours its argument; colours are ignored. *)

From Stdlib Require Import List NArith Ascii String Bool Lia.
Import ListNotations.

Local Open Scope N_scope.
Local Open Scope list_scope.

(** ** JavaScript strings *)

Definition char := N.
Definition jsstring := list char.

(** An ASCII literal as a JavaScript string. *)
Definition js (s : String.string) : jsstring :=
  map N_of_ascii (list_ascii_of_string s).

Definition LF : char := 10.
Definition COMMA : char := 44.
Definition SPACE : char := 32.

Fixpoint str_eqb (s t : jsstring) : bool :=
  match s, t with
  | [], [] => true
  | c :: s', d :: t' => (c =? d) && str_eqb s' t'
  | _, _ => false
  end.

(** [Boolean(s)] on a string: every string but the empty one is truthy. *)
Definition Boolean (s : jsstring) : bool :=
  match s with
  | [] => false
  | _ :: _ => true
  end.

(** The code units [String.prototype.trim] strips: ECMAScript's WhiteSpace
    (TAB, VT, FF, ZWNBSP and the Unicode category Zs) and LineTerminator
    (LF, CR, LS, PS). *)
Definition isWhiteSpace (c : char) : bool :=
  ((9 <=? c) && (c <=? 13)) || (c =? 32) || (c =? 160) || (c =? 5760)
  || ((8192 <=? c) && (c <=? 8202)) || (c =? 8232) || (c =? 8233)
  || (c =? 8239) || (c =? 8287) || (c =? 12288) || (c =? 65279).

Fixpoint trimStart (s : jsstring) : jsstring :=
  match s with
  | [] => []
  | c :: s' => if isWhiteSpace c then trimStart s' else s
  end.

Definition trimEnd (s : jsstring) : jsstring := rev (trimStart (rev s)).

Definition trim (s : jsstring) : jsstring := trimEnd (trimStart s).

(** [s.split(sep)] for a separator of one code unit: the fields between the
    occurrences of [sep]; never the empty array ([''.split(sep)] is ['']). *)
Fixpoint split (sep : char) (s : jsstring) : list jsstring :=
  match s with
  | [] => [[]]
  | c :: s' =>
      if c =? sep then [] :: split sep s'
      else match split sep s' with
           | [] => [[c]]
           | w :: ws => (c :: w) :: ws
           end
  end.

(** [a.join(sep)] on an array of strings. *)
Fixpoint join (sep : char) (a : list jsstring) : jsstring :=
  match a with
  | [] => []
  | [s] => s
  | s :: a' => s ++ sep :: join sep a'
  end.

(** ** [Set] of strings

    A JavaScript [Set] keeps its elements in insertion order; [add] of an
    element that is already present (SameValueZero, on strings: the same
    sequence of code units) changes nothing. *)

Definition Set_has (s : list jsstring) (x : jsstring) : bool :=
  existsb (str_eqb x) s.

Definition Set_add (s : list jsstring) (x : jsstring) : list jsstring :=
  if Set_has s x then s else s ++ [x].

Definition new_Set (iterable : list jsstring) : list jsstring :=
  fold_left Set_add iterable [].

Definition Array_from (s : list jsstring) : list jsstring := s.

(** ** [kafka:topics] (generateTopicsList, index.js 222-240) *)

Inductive event : Type :=
| ConsoleLog (msg : jsstring)
| ConsoleError (msg : jsstring)
| Exec (cmd : jsstring).

Definition chalk_red (s : jsstring) : jsstring := s.
Definition chalk_green (s : jsstring) : jsstring := s.
Definition chalk_yellow (s : jsstring) : jsstring := s.

(** [answers.topics.split(',').map(topic => topic.trim())] *)
Definition newTopics (answers_topics : jsstring) : list jsstring :=
  map trim (split COMMA answers_topics).

(** [existingTopics]: [[]] unless the file exists, in which case
    [fileContent.split('\n').filter(Boolean)]. *)
Definition existingTopics (file : option jsstring) : list jsstring :=
  match file with
  | None => []
  | Some fileContent => filter Boolean (split LF fileContent)
  end.

(** [Array.from(new Set([...existingTopics, ...newTopics]))] *)
Definition combinedTopics (existing new : list jsstring) : list jsstring :=
  Array_from (new_Set (existing ++ new)).

(** [combinedTopics.join('\n')] *)
Definition topicsList (combined : list jsstring) : jsstring :=
  join LF combined.

(** *** Text files in UTF-8

    [fs.writeFile(file, data, 'utf8')] encodes [data] in UTF-8, and a later
    [fs.readFile(file, 'utf8')] decodes the bytes: a surrogate pair comes
    back as it was, a surrogate that is not part of a pair comes back as
    U+FFFD, every other code unit as it was. *)

Definition isHighSurrogate (c : char) : bool :=
  (55296 <=? c) && (c <=? 56319).

Definition isLowSurrogate (c : char) : bool :=
  (56320 <=? c) && (c <=? 57343).

Definition REPLACEMENT : char := 65533.

(** The string read back from the bytes written for [s]; [pending] is a
    high surrogate just passed, not yet known to be paired. *)
Fixpoint decodeEncoded (pending : option char) (s : jsstring) : jsstring :=
  match s with
  | [] => match pending with
          | Some _ => [REPLACEMENT]
          | None => []
          end
  | c :: s' =>
      match pending with
      | Some h =>
          if isLowSurrogate c then h :: c :: decodeEncoded None s'
          else if isHighSurrogate c then
                 REPLACEMENT :: decodeEncoded (Some c) s'
               else REPLACEMENT :: c :: decodeEncoded None s'
      | None =>
          if isHighSurrogate c then decodeEncoded (Some c) s'
          else if isLowSurrogate c then REPLACEMENT :: decodeEncoded None s'
               else c :: decodeEncoded None s'
      end
  end.

(** [s.toWellFormed()], which is what the file gives back. *)
Definition toWellFormed (s : jsstring) : jsstring := decodeEncoded None s.

(** [s.isWellFormed()]: no surrogate outside of a pair; [pending] tells
    that a high surrogate was just passed. *)
Fixpoint wellFormedFrom (pending : bool) (s : jsstring) : bool :=
  match s with
  | [] => negb pending
  | c :: s' =>
      if pending then isLowSurrogate c && wellFormedFrom false s'
      else if isHighSurrogate c then wellFormedFrom true s'
           else negb (isLowSurrogate c) && wellFormedFrom false s'
  end.

Definition isWellFormed (s : jsstring) : bool := wellFormedFrom false s.

(** The file as the next read finds it after
    [fs.writeFile(file, data, 'utf8')]. *)
Definition writeFile_utf8 (data : jsstring) : option jsstring :=
  Some (toWellFormed data).

(** A file that was read as UTF-8 holds a well-formed string. *)
Definition file_wellFormed (file : option jsstring) : Prop :=
  match file with
  | None => True
  | Some content => isWellFormed content = true
  end.

(** The handler: the new state of [topics.txt] and what is printed. *)
Definition generateTopicsList (answers_topics : jsstring)
    (file : option jsstring) : option jsstring * list event :=
  let new := newTopics answers_topics in
  let existing := existingTopics file in
  let combined := combinedTopics existing new in
  (writeFile_utf8 (topicsList combined),
   [ConsoleLog (chalk_green (js "Topics file updated successfully."))]).

(** The entries of a registry file as it is on disk: one per line. *)
Definition file_lines (file : option jsstring) : list jsstring :=
  match file with
  | None => []
  | Some content => split LF content
  end.

(** ** The registry operations as the specification words them *)

(** The first appearance of every element of [l], in the order of [l]. *)
Fixpoint first_appearances (l : list jsstring) : list jsstring :=
  match l with
  | [] => []
  | x :: l' =>
      x :: filter (fun y => negb (str_eqb x y)) (first_appearances l')
  end.

(** [Merge(existing, incoming)]: "[existing] concatenated with the
    subsequence of [incoming] whose elements are not already present in
    [existing], preserving the relative order of first appearance". *)
Definition spec_Merge (existing incoming : list jsstring) : list jsstring :=
  existing
  ++ first_appearances
       (filter (fun t => negb (Set_has existing t)) incoming).

(** [Load()]: "the ordered sequence of non-empty, trimmed lines", read as
    the lines first trimmed and then kept when not empty... *)
Definition spec_Load (file : option jsstring) : list jsstring :=
  match file with
  | None => []
  | Some content => filter Boolean (map trim (split LF content))
  end.

(** ... or as the non-empty lines, each of them trimmed. *)
Definition spec_Load' (file : option jsstring) : list jsstring :=
  match file with
  | None => []
  | Some content => map trim (filter Boolean (split LF content))
  end.

(** Input parsing: "trimmed candidate names; empty candidates are dropped
    before merging". *)
Definition spec_candidates (answers_topics : jsstring) : list jsstring :=
  filter Boolean (map trim (split COMMA answers_topics)).

(** A string that holds no line feed fits on one line of the file. *)
Definition one_line (s : jsstring) : Prop := ~ In LF s.

(** ** The outside world and the handlers' effects *)

(** How an [execPromise] call settles: resolved with the standard output of
    the command, or rejected with an error carrying a [message]. *)
Inductive settled : Type :=
| Resolved (stdout : jsstring)
| Rejected (message : jsstring).

(** What a step of a handler leaves: a value, or a thrown error. *)
Inductive completion (A : Type) : Type :=
| Normal (a : A)
| Throw (message : jsstring).

Arguments Normal {A} a.
Arguments Throw {A} message.

Record state (World : Type) : Type :=
  { world : World;          (* the container runtime and the broker *)
    trace : list event }.   (* what the handler did so far, oldest first *)

Arguments world {World} s.
Arguments trace {World} s.

Definition M (World A : Type) : Type :=
  state World -> completion A * state World.

Section Handlers.
Context {World : Type}.

(** [exec cmd w]: how the shell command [cmd] settles when the world is
    [w], and the world it leaves. *)
Variable exec : jsstring -> World -> settled * World.

Definition ret {A} (a : A) : M World A := fun s => (Normal a, s).

Definition bind {A B} (m : M World A) (k : A -> M World B) : M World B :=
  fun s =>
    match m s with
    | (Normal a, s') => k a s'
    | (Throw e, s') => (Throw e, s')
    end.

Local Notation "x <- m ;; k" := (bind m (fun x => k))
  (at level 61, m at next level, right associativity).
Local Notation "m ;; k" := (bind m (fun _ => k))
  (at level 61, right associativity).

(** [try { body } catch (error) { handler(error.message) }] *)
Definition try_catch (body : M World unit)
    (handler : jsstring -> M World unit) : M World unit :=
  fun s =>
    match body s with
    | (Normal a, s') => (Normal a, s')
    | (Throw e, s') => handler e s'
    end.

Definition emit (e : event) : M World unit :=
  fun s => (Normal tt, {| world := world s; trace := trace s ++ [e] |}).

Definition console_log (msg : jsstring) : M World unit :=
  emit (ConsoleLog msg).

(** [console.error] prints its arguments separated by a space. *)
Definition console_error (msg : jsstring) : M World unit :=
  emit (ConsoleError msg).

Definition console_error2 (a b : jsstring) : M World unit :=
  emit (ConsoleError (a ++ SPACE :: b)).

(** [await execPromise(cmd)]: the command is run, the value is its
    standard output; a rejection is thrown at the [await]. *)
Definition execPromise (cmd : jsstring) : M World jsstring :=
  fun s =>
    let (r, w') := exec cmd (world s) in
    let s' := {| world := w'; trace := trace s ++ [Exec cmd] |} in
    match r with
    | Resolved stdout => (Normal stdout, s')
    | Rejected message => (Throw message, s')
    end.

(** [for (const x of xs) { body }] *)
Fixpoint for_of {A} (xs : list A) (body : A -> M World unit)
    : M World unit :=
  match xs with
  | [] => ret tt
  | x :: xs' => body x ;; for_of xs' body
  end.

(** ** [kafka:create] (createKafkaContainer, index.js 162-179) *)

(** [const containerName = 'kafka-server'], in both container handlers,
    and [const imageName = 'apache/kafka:3.8.0']. *)
Definition containerName : jsstring := js "kafka-server".
Definition imageName : jsstring := js "apache/kafka:3.8.0".

Definition psAllCommand (containerName : jsstring) : jsstring :=
  js "docker ps -aq -f name=" ++ containerName.

Definition runCommand (containerName imageName : jsstring) : jsstring :=
  js "docker run -d --name " ++ containerName
  ++ js " -p 9092:9092 -e ALLOW_PLAINTEXT_LISTENER=yes " ++ imageName.

Definition createKafkaContainer : M World unit :=
  try_catch
    (stdout <- execPromise (psAllCommand containerName) ;;
     if Boolean (trim stdout) then
       console_log (chalk_yellow
         (js "The container " ++ containerName ++ js " already exists."))
     else
       console_log
         (js "Creating the container " ++ containerName ++ js "...") ;;
       execPromise (runCommand containerName imageName) ;;
       console_log (chalk_green
         (js "Container " ++ containerName ++ js " created and running.")))
    (fun message => console_error2 (chalk_red (js "Error:")) message).

(** ** [kafka:start] (startKafkaContainer, index.js 186-208) *)

Definition psRunningCommand (containerName : jsstring) : jsstring :=
  js "docker ps -q -f name=" ++ containerName.

Definition startCommand (containerName : jsstring) : jsstring :=
  js "docker start " ++ containerName.

Definition startKafkaContainer : M World unit :=
  try_catch
    (stdout <- execPromise (psAllCommand containerName) ;;
     if negb (Boolean (trim stdout)) then
       console_error (chalk_red (js "Error: The container does not exist."))
     else
       isRunning <- execPromise (psRunningCommand containerName) ;;
       if Boolean (trim isRunning) then
         console_log (chalk_yellow
           (js "The container " ++ containerName
            ++ js " is already running."))
       else
         console_log
           (js "Starting the container " ++ containerName ++ js "...") ;;
         execPromise (startCommand containerName) ;;
         console_log (chalk_green
           (js "Container " ++ containerName ++ js " started.")))
    (fun message => console_error2 (chalk_red (js "Error:")) message).

(** ** [kafka:migrate] (kafkaMigrate, index.js 249-267) *)

Definition createTopicCommand (topic : jsstring) : jsstring :=
  js "docker exec kafka-server /opt/kafka/bin/kafka-topics.sh --create --topic "
  ++ topic ++ js " --bootstrap-server localhost:9092".

(** [fs.readFileSync(topicsFile, 'utf8').split('\n').filter(Boolean)] *)
Definition topics (fileContent : jsstring) : list jsstring :=
  filter Boolean (split LF fileContent).

(** The body of the loop over the topics. *)
Definition createTopic (topic : jsstring) : M World unit :=
  console_log (js "Creating the topic " ++ topic ++ js "...") ;;
  execPromise (createTopicCommand topic) ;;
  console_log (js "Topic " ++ topic ++ js " created successfully.").

Definition kafkaMigrate (file : option jsstring) : M World unit :=
  try_catch
    (match file with
     | None =>
         console_error
           (chalk_red (js "Error: The topics.txt file does not exist."))
     | Some fileContent => for_of (topics fileContent) createTopic
     end)
    (fun message => console_error2 (chalk_red (js "Error:")) message).

(** One invocation of a command: the handler run from an empty trace. *)
Definition run (handler : M World unit) (w : World) : state World :=
  snd (handler {| world := w; trace := [] |}).

(** The creation requests for [ts], issued one after the other from the
    world [w], all succeed and leave the world [w']. *)
Fixpoint all_created (ts : list jsstring) (w w' : World) : Prop :=
  match ts with
  | [] => w = w'
  | t :: ts' =>
      exists stdout w1,
        exec (createTopicCommand t) w = (Resolved stdout, w1)
        /\ all_created ts' w1 w'
  end.
End Handlers.

(** The commands a trace dispatched, and the errors it reported. *)
Definition commands (tr : list event) : list jsstring :=
  flat_map (fun e => match e with Exec cmd => [cmd] | _ => [] end) tr.

Definition errors (tr : list event) : list jsstring :=
  flat_map (fun e => match e with ConsoleError m => [m] | _ => [] end) tr.

(** What one successful turn of the loop of [kafka:migrate] adds to the
    trace. *)
Definition created (topic : jsstring) : list event :=
  [ConsoleLog (js "Creating the topic " ++ topic ++ js "...");
   Exec (createTopicCommand topic);
   ConsoleLog (js "Topic " ++ topic ++ js " created successfully.")].

(** ** A container runtime to run the handlers on

    One container, [kafka-server], and the topics of its broker.  Creating
    a container that exists, starting one that does not, reaching the broker
    of a container that is not running and creating a topic that exists all
    fail. *)

Inductive container : Type := Absent | Stopped | Running.

Record docker : Type :=
  { kafka_server : container;
    broker_topics : list jsstring }.

Fixpoint strip_prefix (p s : jsstring) : option jsstring :=
  match p, s with
  | [], _ => Some s
  | c :: p', d :: s' => if c =? d then strip_prefix p' s' else None
  | _ :: _, [] => None
  end.

Fixpoint word (s : jsstring) : jsstring :=
  match s with
  | [] => []
  | c :: s' => if c =? SPACE then [] else c :: word s'
  end.

Definition container_id : jsstring := js "3f2a9c1d4b7e" ++ [LF].

Definition docker_exec (cmd : jsstring) (d : docker) : settled * docker :=
  if str_eqb cmd (js "docker ps -aq -f name=kafka-server") then
    (Resolved match kafka_server d with
              | Absent => []
              | _ => container_id
              end, d)
  else if str_eqb cmd (js "docker ps -q -f name=kafka-server") then
    (Resolved match kafka_server d with
              | Running => container_id
              | _ => []
              end, d)
  else if str_eqb cmd (js "docker start kafka-server") then
    match kafka_server d with
    | Absent => (Rejected (js "Command failed: docker start kafka-server"), d)
    | _ => (Resolved (js "kafka-server" ++ [LF]),
            {| kafka_server := Running; broker_topics := broker_topics d |})
    end
  else
    match strip_prefix (js "docker run -d --name kafka-server ") cmd with
    | Some _ =>
        match kafka_server d with
        | Absent =>
            (Resolved container_id,
             {| kafka_server := Running; broker_topics := broker_topics d |})
        | _ => (Rejected (js "Command failed: name already in use"), d)
        end
    | None =>
        match strip_prefix
                (js "docker exec kafka-server /opt/kafka/bin/kafka-topics.sh --create --topic ")
                cmd with
        | Some rest =>
            let topic := word rest in
            match kafka_server d with
            | Running =>
                if Set_has (broker_topics d) topic then
                  (Rejected (js "Command failed: topic already exists"), d)
                else
                  (Resolved (js "Created topic " ++ topic ++ js "." ++ [LF]),
                   {| kafka_server := Running;
                      broker_topics := broker_topics d ++ [topic] |})
            | _ => (Rejected (js "Command failed: container is not running"), d)
            end
        | None => (Rejected (js "Command failed: unknown command"), d)
        end
    end.

(** ** [toPascalCase] (index.js 271-276) and the generated file names *)

Definition HYPHEN : char := 45.

(** The class [[\s-]] of the regular expression: [\s] is the white space
    that [trim] strips. *)
Definition isSeparator (c : char) : bool := isWhiteSpace c || (c =? HYPHEN).

(** [str.split(/[\s-]+/)]: the fields between the maximal runs of
    separators; [inRun] tells that the code unit before was a separator. *)
Fixpoint splitRuns (inRun : bool) (str : jsstring) : list jsstring :=
  match str with
  | [] => [[]]
  | c :: str' =>
      if isSeparator c then
        if inRun then splitRuns true str' else [] :: splitRuns true str'
      else match splitRuns false str' with
           | [] => [[c]]
           | w :: ws => (c :: w) :: ws
           end
  end.

(** [word.charAt(0)] and [word.slice(1)] *)
Definition charAt0 (word : jsstring) : jsstring :=
  match word with
  | [] => []
  | c :: _ => [c]
  end.

Definition slice1 (word : jsstring) : jsstring :=
  match word with
  | [] => []
  | _ :: w => w
  end.

(** What [toUpperCase] and [toLowerCase] do to a code unit of an ASCII
    string. *)
Definition upperAscii (c : char) : char :=
  if (97 <=? c) && (c <=? 122) then c - 32 else c.

Definition lowerAscii (c : char) : char :=
  if (65 <=? c) && (c <=? 90) then c + 32 else c.

Definition isAscii (c : char) : bool := c <? 128.

Section PascalCase.
(** [String.prototype.toUpperCase] and [toLowerCase]: the case mappings of
    Unicode are taken as given. *)
Variable toUpperCase toLowerCase : jsstring -> jsstring.

(** [word => word.charAt(0).toUpperCase() + word.slice(1).toLowerCase()] *)
Definition capitalize (word : jsstring) : jsstring :=
  toUpperCase (charAt0 word) ++ toLowerCase (slice1 word).

Definition toPascalCase (str : jsstring) : jsstring :=
  List.concat (map capitalize (splitRuns false str)).

(** The files of [kafka:consumer] (index.js 121-124) and [kafka:producer]
    (index.js 148-151). *)
Definition consumerFile (answers_name : jsstring) : jsstring :=
  let consumerName := toPascalCase answers_name in
  js "Http/Consumer/" ++ consumerName ++ js ".consumer.js".

Definition producerFile (answers_name : jsstring) : jsstring :=
  let producerName := toPascalCase answers_name in
  js "Http/Producer/" ++ producerName ++ js ".producer.js".
End PascalCase.

(** The case mappings on ASCII strings, and nothing changed elsewhere: an
    instance to run [toPascalCase] on. *)
Definition toUpperCaseAscii (s : jsstring) : jsstring := map upperAscii s.
Definition toLowerCaseAscii (s : jsstring) : jsstring := map lowerAscii s.

(** ** [make:token] (makeToken, index.js 34-90) *)

(** [buffer.toString('hex')]: two lowercase hexadecimal digits a byte. *)
Definition hexDigit (n : N) : char :=
  if n <? 10 then 48 + n else 87 + n.

(** The digits [0-9a-f]. *)
Definition isHex (c : char) : bool :=
  ((48 <=? c) && (c <=? 57)) || ((97 <=? c) && (c <=? 102)).

Definition toString_hex (buffer : list Byte.byte) : jsstring :=
  flat_map (fun b => [hexDigit (Byte.to_N b / 16);
                      hexDigit (Byte.to_N b mod 16)]) buffer.

(** [generateRandomToken]: [randomBytes] is what
    [crypto.randomBytes(length)] returned. *)
Definition generateRandomToken (randomBytes : list Byte.byte) : jsstring :=
  toString_hex randomBytes.

Definition SLASH : char := 47.
Definition BACKSLASH : char := 92.
Definition DOLLAR : char := 36.

(** [token.replace(/\//g, '\\/')]: a backslash before every slash. *)
Definition escapeSlashes (token : jsstring) : jsstring :=
  flat_map (fun c => if c =? SLASH then [BACKSLASH; SLASH] else [c]) token.

(** The code units the [.] of a regular expression does not match. *)
Definition isLineTerminator (c : char) : bool :=
  (c =? 10) || (c =? 13) || (c =? 8232) || (c =? 8233).

Definition API_TOKEN_HASH : jsstring := js "API_TOKEN_HASH=".

(** [envContent.replace(/API_TOKEN_HASH=.*/g, replacement)], for a
    [replacement] without [$]: left to right, every occurrence of the key
    with what follows it up to the next line terminator is replaced.
    [skip] counts the code units of a matched key still to pass, [inMatch]
    tells that the rest of a matched line is being passed. *)
Fixpoint replaceTokenHash (replacement : jsstring) (skip : nat)
    (inMatch : bool) (envContent : jsstring) : jsstring :=
  match envContent with
  | [] => []
  | c :: rest =>
      match skip with
      | S n => replaceTokenHash replacement n inMatch rest
      | O =>
          if inMatch && negb (isLineTerminator c) then
            replaceTokenHash replacement 0 true rest
          else
            match strip_prefix API_TOKEN_HASH envContent with
            | Some _ =>
                replacement
                ++ replaceTokenHash replacement
                     (List.length API_TOKEN_HASH - 1) true rest
            | None => c :: replaceTokenHash replacement 0 false rest
            end
      end
  end.

(** [s.includes(p)] *)
Fixpoint includes (p s : jsstring) : bool :=
  match strip_prefix p s with
  | Some _ => true
  | None => match s with
            | [] => false
            | _ :: s' => includes p s'
            end
  end.

(** The files [make:token] touches. *)
Record token_files : Type :=
  { dot_env : option jsstring;        (* .env *)
    token_txt : option jsstring }.    (* token(deleteMe).txt *)

(** The handler, on the [randomBytes] drawn and the files as they are: the
    files as it leaves them and what it prints. *)
Definition makeToken (randomBytes : list Byte.byte) (files : token_files)
    : token_files * list event :=
  let token := generateRandomToken randomBytes in
  let escapedTokenHash := escapeSlashes token in
  let envContent := match dot_env files with
                    | Some content => content
                    | None => []
                    end in
  let newEnvContent :=
    replaceTokenHash (API_TOKEN_HASH ++ escapedTokenHash) 0 false
      envContent in
  let env' :=
    if str_eqb newEnvContent envContent then
      (* fs.appendFile: at the end of the file, created when absent *)
      envContent ++ API_TOKEN_HASH ++ escapedTokenHash ++ [LF]
    else newEnvContent in
  ({| dot_env := Some env'; token_txt := Some token |},
   [ConsoleLog (chalk_green (js "Token generated and saved successfully."))]).

(** * Strings and arrays *)

Lemma str_eqb_eq (s t : jsstring) : str_eqb s t = true <-> s = t.
Proof.
  revert t; induction s as [|c s IH]; intros [|d t]; simpl;
    try (split; [discriminate | discriminate]); try tauto.
  rewrite andb_true_iff, N.eqb_eq, IH.
  split; [intros [-> ->]; reflexivity | intros H; inversion H; auto].
Qed.

Lemma str_eqb_refl (s : jsstring) : str_eqb s s = true.
Proof. apply str_eqb_eq; reflexivity. Qed.

Lemma str_eqb_sym (s t : jsstring) : str_eqb s t = str_eqb t s.
Proof.
  destruct (str_eqb s t) eqn:E, (str_eqb t s) eqn:F; try reflexivity.
  - apply str_eqb_eq in E; subst. now rewrite str_eqb_refl in F.
  - apply str_eqb_eq in F; subst. now rewrite str_eqb_refl in E.
Qed.

Lemma str_eqb_neq (s t : jsstring) : str_eqb s t = false <-> s <> t.
Proof.
  split.
  - intros E ->. now rewrite str_eqb_refl in E.
  - intros N. destruct (str_eqb s t) eqn:E; [|reflexivity].
    apply str_eqb_eq in E; contradiction.
Qed.

Lemma Set_has_In (s : list jsstring) (x : jsstring) :
  Set_has s x = true <-> In x s.
Proof.
  unfold Set_has. rewrite existsb_exists. split.
  - intros (y & Hy & E). apply str_eqb_eq in E. now subst.
  - intros H. exists x. split; [assumption | apply str_eqb_refl].
Qed.

Lemma Set_has_false (s : list jsstring) (x : jsstring) :
  Set_has s x = false <-> ~ In x s.
Proof.
  rewrite <- Set_has_In. destruct (Set_has s x); split; congruence.
Qed.

Lemma Boolean_true (s : jsstring) : Boolean s = true <-> s <> [].
Proof. destruct s; simpl; split; congruence. Qed.

Lemma filter_filter {A} (p q : A -> bool) (l : list A) :
  filter p (filter q l) = filter (fun x => q x && p x) l.
Proof.
  induction l as [|a l IH]; simpl; [reflexivity|].
  destruct (q a); simpl; [destruct (p a)|]; now rewrite IH.
Qed.

Lemma filter_id {A} (p : A -> bool) (l : list A) :
  Forall (fun x => p x = true) l -> filter p l = l.
Proof.
  induction 1 as [|a l Ha _ IH]; simpl; [reflexivity|].
  now rewrite Ha, IH.
Qed.

Lemma filter_none {A} (p : A -> bool) (l : list A) :
  (forall x, In x l -> p x = false) -> filter p l = [].
Proof.
  induction l as [|a l IH]; intros H; simpl; [reflexivity|].
  rewrite (H a) by now left. apply IH. intros x Hx. apply H. now right.
Qed.

Lemma filter_Forall {A} (p : A -> bool) (l : list A) :
  Forall (fun x => p x = true) (filter p l).
Proof. apply Forall_forall. intros x H. now apply filter_In in H. Qed.

(** ** [split] and [join] *)

Lemma split_not_nil (sep : char) (s : jsstring) : split sep s <> [].
Proof.
  destruct s as [|c s]; simpl; [discriminate|].
  destruct (c =? sep); [discriminate|].
  destruct (split sep s); discriminate.
Qed.

Lemma join_cons (sep : char) (s : jsstring) (a : list jsstring) :
  a <> [] -> join sep (s :: a) = s ++ sep :: join sep a.
Proof. destruct a; [congruence | reflexivity]. Qed.

Lemma join_split (sep : char) (s : jsstring) : join sep (split sep s) = s.
Proof.
  induction s as [|c s IH]; simpl; [reflexivity|].
  destruct (c =? sep) eqn:E.
  - apply N.eqb_eq in E. subst c.
    rewrite join_cons by apply split_not_nil. simpl. now rewrite IH.
  - pose proof (split_not_nil sep s) as Hne.
    destruct (split sep s) as [|w ws]; [congruence|].
    destruct ws as [|w' ws]; simpl in *; now rewrite <- IH.
Qed.

Lemma split_fields (sep : char) (s : jsstring) :
  Forall (fun w => ~ In sep w) (split sep s).
Proof.
  induction s as [|c s IH]; simpl.
  - constructor; [intros [] | constructor].
  - destruct (c =? sep) eqn:E.
    + constructor; [intros [] | assumption].
    + apply N.eqb_neq in E.
      destruct (split sep s) as [|w ws].
      * constructor; [|constructor]. intros [H|[]]. congruence.
      * inversion IH as [|? ? Hw Hws]; subst.
        constructor; [|assumption].
        intros [H|H]; [congruence | contradiction].
Qed.

Lemma split_app (sep : char) (s t : jsstring) :
  ~ In sep s -> split sep (s ++ sep :: t) = s :: split sep t.
Proof.
  induction s as [|c s IH]; simpl; intros H.
  - now rewrite N.eqb_refl.
  - destruct (c =? sep) eqn:E.
    + apply N.eqb_eq in E. tauto.
    + rewrite IH by tauto. reflexivity.
Qed.

Lemma split_one (sep : char) (s : jsstring) :
  ~ In sep s -> split sep s = [s].
Proof.
  induction s as [|c s IH]; simpl; intros H; [reflexivity|].
  destruct (c =? sep) eqn:E.
  - apply N.eqb_eq in E. tauto.
  - rewrite IH by tauto. reflexivity.
Qed.

Lemma split_join (sep : char) (a : list jsstring) :
  Forall (fun w => ~ In sep w) a -> a <> [] -> split sep (join sep a) = a.
Proof.
  induction 1 as [|s a Hs Ha IH]; intros Hne; [now elim Hne|].
  destruct a as [|s' a].
  - simpl. now apply split_one.
  - rewrite join_cons by discriminate.
    rewrite split_app by assumption.
    now rewrite IH by discriminate.
Qed.

(** Reading back what [join] wrote, empty lines dropped. *)
Lemma filter_split_join (a : list jsstring) :
  Forall one_line a ->
  filter Boolean (split LF (join LF a)) = filter Boolean a.
Proof.
  intros H. destruct a as [|s a]; [reflexivity|].
  now rewrite split_join by (assumption || discriminate).
Qed.

(** ** [trim] *)

Lemma trimStart_In (c : char) (s : jsstring) : In c (trimStart s) -> In c s.
Proof.
  induction s as [|d s IH]; simpl; [tauto|].
  destruct (isWhiteSpace d); simpl; tauto.
Qed.

Lemma trim_In (c : char) (s : jsstring) : In c (trim s) -> In c s.
Proof.
  unfold trim, trimEnd. intros H.
  apply in_rev in H. apply trimStart_In in H. apply in_rev in H.
  now apply trimStart_In.
Qed.

(** * The topic registry *)

(** ** Merging through a [Set] *)

Lemma Set_has_app (s : list jsstring) (x y : jsstring) :
  Set_has (s ++ [x]) y = Set_has s y || str_eqb y x.
Proof. unfold Set_has. rewrite existsb_app. simpl. now rewrite orb_false_r. Qed.

Lemma first_appearances_filter (p : jsstring -> bool) (l : list jsstring) :
  first_appearances (filter p l) = filter p (first_appearances l).
Proof.
  induction l as [|x l IH]; simpl; [reflexivity|].
  destruct (p x) eqn:Px; simpl.
  - rewrite IH, !filter_filter. f_equal.
    apply filter_ext. intros y. apply andb_comm.
  - rewrite IH, filter_filter. apply filter_ext. intros y.
    destruct (str_eqb x y) eqn:E; simpl; [|reflexivity].
    apply str_eqb_eq in E. subst y. now rewrite Px.
Qed.

Lemma first_appearances_In (l : list jsstring) (x : jsstring) :
  In x (first_appearances l) <-> In x l.
Proof.
  induction l as [|y l IH]; simpl; [tauto|].
  rewrite filter_In, IH, negb_true_iff, str_eqb_neq.
  destruct (list_eq_dec N.eq_dec y x); tauto.
Qed.

Lemma first_appearances_NoDup (l : list jsstring) :
  NoDup (first_appearances l).
Proof.
  induction l as [|x l IH]; simpl; constructor.
  - rewrite filter_In, negb_true_iff, str_eqb_neq. tauto.
  - now apply NoDup_filter.
Qed.

Lemma first_appearances_id (l : list jsstring) :
  NoDup l -> first_appearances l = l.
Proof.
  induction 1 as [|x l Hx _ IH]; simpl; [reflexivity|].
  rewrite IH. f_equal. apply filter_id, Forall_forall.
  intros y Hy. rewrite negb_true_iff, str_eqb_neq. congruence.
Qed.

(** The loop of [new Set(iterable)], from any set built so far. *)
Lemma fold_Set_add (l acc : list jsstring) :
  fold_left Set_add l acc
  = acc ++ first_appearances (filter (fun t => negb (Set_has acc t)) l).
Proof.
  revert acc; induction l as [|x l IH]; intros acc; simpl.
  - now rewrite app_nil_r.
  - unfold Set_add at 2. destruct (Set_has acc x) eqn:Hx; simpl.
    + apply IH.
    + rewrite IH, <- app_assoc. simpl. do 2 f_equal.
      rewrite <- first_appearances_filter, filter_filter. f_equal.
      apply filter_ext. intros y.
      now rewrite Set_has_app, negb_orb, (str_eqb_sym x y).
Qed.

Lemma new_Set_first_appearances (l : list jsstring) :
  new_Set l = first_appearances l.
Proof.
  unfold new_Set. rewrite fold_Set_add. simpl. f_equal.
  apply filter_id, Forall_forall. reflexivity.
Qed.

Lemma combinedTopics_spec_Merge (existing incoming : list jsstring) :
  NoDup existing ->
  combinedTopics existing incoming = spec_Merge existing incoming.
Proof.
  intros H. unfold combinedTopics, Array_from, new_Set, spec_Merge.
  rewrite fold_left_app.
  change (fold_left Set_add existing []) with (new_Set existing).
  rewrite new_Set_first_appearances, first_appearances_id by assumption.
  apply fold_Set_add.
Qed.

Lemma combinedTopics_In (existing incoming : list jsstring) (t : jsstring) :
  In t (combinedTopics existing incoming) <-> In t existing \/ In t incoming.
Proof.
  unfold combinedTopics, Array_from.
  now rewrite new_Set_first_appearances, first_appearances_In, in_app_iff.
Qed.

Lemma combinedTopics_NoDup (existing incoming : list jsstring) :
  NoDup (combinedTopics existing incoming).
Proof.
  unfold combinedTopics, Array_from. rewrite new_Set_first_appearances.
  apply first_appearances_NoDup.
Qed.

(** C3. On a duplicate-free [existing], the merge of [kafka:topics] is
    [existing] followed by the elements of [incoming] that are not in
    [existing], each at its first appearance (all of them, in the order of
    [incoming], when [incoming] repeats nothing), which is the order of
    first appearance in [existing ++ incoming]; it has no duplicates and
    holds the elements of both lists; merging a registry with itself gives
    it back, and merging a,b with b,c,a gives a,b,c. *)
Theorem Merge_stable_union (existing incoming : list jsstring) :
  NoDup existing ->
  combinedTopics existing incoming = spec_Merge existing incoming
  /\ combinedTopics existing incoming
     = first_appearances (existing ++ incoming)
  /\ (NoDup incoming ->
      combinedTopics existing incoming
      = existing ++ filter (fun t => negb (Set_has existing t)) incoming)
  /\ NoDup (combinedTopics existing incoming)
  /\ (forall t, In t (combinedTopics existing incoming)
                <-> In t existing \/ In t incoming)
  /\ combinedTopics existing existing = existing
  /\ combinedTopics [js "a"; js "b"] [js "b"; js "c"; js "a"]
     = [js "a"; js "b"; js "c"].
Proof.
  intros H. repeat split.
  - now apply combinedTopics_spec_Merge.
  - apply new_Set_first_appearances.
  - intros Hi. rewrite combinedTopics_spec_Merge by assumption.
    unfold spec_Merge. f_equal.
    apply first_appearances_id. now apply NoDup_filter.
  - apply combinedTopics_NoDup.
  - now apply combinedTopics_In.
  - now apply combinedTopics_In.
  - rewrite combinedTopics_spec_Merge by assumption. unfold spec_Merge.
    replace (filter _ existing) with (@nil jsstring);
      [simpl; apply app_nil_r|].
    symmetry. apply filter_none. intros y Hy.
    apply negb_false_iff, Set_has_In, Hy.
Qed.

Lemma Merge_stable_union_witness :
  combinedTopics [js "orders"] [js "payments"; js "orders"]
  = spec_Merge [js "orders"] [js "payments"; js "orders"].
Proof.
  refine (proj1 (Merge_stable_union
                   [js "orders"] [js "payments"; js "orders"] _)).
  apply NoDup_cons; [simpl; tauto | apply NoDup_nil].
Defined.

(** ** Writing as UTF-8 *)

Lemma wellFormedFrom_plain (c : char) (s : jsstring) :
  isHighSurrogate c = false -> isLowSurrogate c = false ->
  wellFormedFrom false (c :: s) = wellFormedFrom false s.
Proof. intros Hh Hl. cbn [wellFormedFrom]. now rewrite Hh, Hl. Qed.

Lemma wellFormedFrom_pending_plain (c : char) (s : jsstring) :
  isLowSurrogate c = false -> wellFormedFrom true (c :: s) = false.
Proof. intros Hl. cbn [wellFormedFrom]. now rewrite Hl. Qed.

(** A well-formed string is written and read back as it is. *)
Lemma decodeEncoded_wellFormed (s : jsstring) :
  (wellFormedFrom false s = true -> decodeEncoded None s = s)
  /\ (forall h, wellFormedFrom true s = true ->
                decodeEncoded (Some h) s = h :: s).
Proof.
  induction s as [|c s [IH1 IH2]]; split.
  - reflexivity.
  - discriminate.
  - cbn [wellFormedFrom decodeEncoded].
    destruct (isHighSurrogate c); [apply IH2|].
    destruct (isLowSurrogate c); [discriminate|].
    cbn [negb andb]. intros H. f_equal. now apply IH1.
  - intros h. cbn [wellFormedFrom decodeEncoded].
    destruct (isLowSurrogate c); [|discriminate].
    cbn [andb]. intros H. do 2 f_equal. now apply IH1.
Qed.

Lemma toWellFormed_id (s : jsstring) :
  isWellFormed s = true -> toWellFormed s = s.
Proof. apply decodeEncoded_wellFormed. Qed.

(** What is read back is well-formed. *)
Lemma decodeEncoded_isWellFormed (s : jsstring) :
  wellFormedFrom false (decodeEncoded None s) = true
  /\ (forall h, isHighSurrogate h = true ->
                wellFormedFrom false (decodeEncoded (Some h) s) = true).
Proof.
  induction s as [|c s [IH1 IH2]]; split.
  - reflexivity.
  - reflexivity.
  - cbn [decodeEncoded].
    destruct (isHighSurrogate c) eqn:Hh; [now apply IH2|].
    destruct (isLowSurrogate c) eqn:Hl.
    + now rewrite wellFormedFrom_plain by reflexivity.
    + now rewrite wellFormedFrom_plain by assumption.
  - intros h Hhigh. cbn [decodeEncoded].
    destruct (isLowSurrogate c) eqn:Hl.
    + cbn [wellFormedFrom]. now rewrite Hhigh, Hl.
    + destruct (isHighSurrogate c) eqn:Hh.
      * rewrite wellFormedFrom_plain by reflexivity. now apply IH2.
      * rewrite wellFormedFrom_plain by reflexivity.
        now rewrite wellFormedFrom_plain by assumption.
Qed.

Lemma writeFile_utf8_wellFormed (data : jsstring) :
  file_wellFormed (writeFile_utf8 data).
Proof. apply decodeEncoded_isWellFormed. Qed.

Lemma wellFormedFrom_app (a b : jsstring) :
  forall pending,
    wellFormedFrom pending a = true ->
    wellFormedFrom pending (a ++ b) = wellFormedFrom false b.
Proof.
  induction a as [|c a IH]; intros pending H.
  - destruct pending; [discriminate | reflexivity].
  - cbn [app wellFormedFrom] in *.
    destruct pending.
    + destruct (isLowSurrogate c); [|discriminate]. now apply IH.
    + destruct (isHighSurrogate c); [now apply IH|].
      destruct (isLowSurrogate c); [discriminate|]. now apply IH.
Qed.

(** Code units that are no surrogates, at the end of a string, can go. *)
Lemma wellFormedFrom_drop_end (t : jsstring) :
  (forall c, In c t ->
     isHighSurrogate c = false /\ isLowSurrogate c = false) ->
  forall a pending,
    wellFormedFrom pending (a ++ t) = true ->
    wellFormedFrom pending a = true.
Proof.
  intros Ht. induction a as [|c a IH]; intros pending H.
  - destruct pending; [|reflexivity]. cbn [app] in H.
    destruct t as [|d t]; [discriminate H|].
    rewrite wellFormedFrom_pending_plain in H; [discriminate H|].
    apply Ht. now left.
  - cbn [app wellFormedFrom] in *.
    destruct pending.
    + destruct (isLowSurrogate c); [|discriminate]. now apply IH.
    + destruct (isHighSurrogate c); [now apply IH|].
      destruct (isLowSurrogate c); [discriminate|]. now apply IH.
Qed.

Lemma isWhiteSpace_plain (c : char) :
  isWhiteSpace c = true ->
  isHighSurrogate c = false /\ isLowSurrogate c = false.
Proof.
  unfold isWhiteSpace, isHighSurrogate, isLowSurrogate. intros H.
  assert (R : c < 55296 \/ 57343 < c).
  { repeat (apply orb_true_iff in H; destruct H as [H|H]);
      try (apply andb_true_iff in H; destruct H as [H1 H2];
           apply N.leb_le in H1; apply N.leb_le in H2);
      try apply N.eqb_eq in H; lia. }
  split; apply andb_false_iff; destruct R as [R|R];
    solve [left; apply N.leb_gt; lia | right; apply N.leb_gt; lia].
Qed.

Lemma trimStart_cut (s : jsstring) :
  exists u, s = u ++ trimStart s /\ forall c, In c u -> isWhiteSpace c = true.
Proof.
  induction s as [|c s (u & E & Hu)].
  - exists []. split; [reflexivity | intros ? []].
  - cbn [trimStart]. destruct (isWhiteSpace c) eqn:Hc.
    + exists (c :: u). split; [cbn [app]; now f_equal|].
      intros d [<-|Hd]; [assumption | now apply Hu].
    + exists []. split; [reflexivity | intros ? []].
Qed.

Lemma trimEnd_cut (s : jsstring) :
  exists u, s = trimEnd s ++ u /\ forall c, In c u -> isWhiteSpace c = true.
Proof.
  destruct (trimStart_cut (rev s)) as (u & E & Hu).
  exists (rev u). split.
  - unfold trimEnd. rewrite <- rev_app_distr, <- E. now rewrite rev_involutive.
  - intros c Hc. apply Hu. now apply in_rev.
Qed.

Lemma trim_wellFormed (s : jsstring) :
  isWellFormed s = true -> isWellFormed (trim s) = true.
Proof.
  unfold isWellFormed, trim. intros H.
  assert (H1 : wellFormedFrom false (trimStart s) = true).
  { destruct (trimStart_cut s) as (u & E & Hu). rewrite E in H. clear E.
    induction u as [|c u IH]; [exact H|].
    apply IH; [|intros d Hd; apply Hu; now right].
    cbn [app] in H. rewrite wellFormedFrom_plain in H; [exact H| |];
      apply isWhiteSpace_plain, Hu; now left. }
  destruct (trimEnd_cut (trimStart s)) as (u & E & Hu).
  rewrite E in H1. revert H1. apply wellFormedFrom_drop_end.
  intros c Hc. apply isWhiteSpace_plain. now apply Hu.
Qed.

(** The fields between separators that are no surrogates. *)
Lemma split_wellFormed (sep : char) (s : jsstring) :
  isHighSurrogate sep = false -> isLowSurrogate sep = false ->
  forall pending,
    wellFormedFrom pending s = true ->
    exists w ws,
      split sep s = w :: ws
      /\ wellFormedFrom pending w = true
      /\ Forall (fun x => isWellFormed x = true) ws.
Proof.
  intros Hh Hl. induction s as [|c s IH]; intros pending H.
  - exists [], []. repeat split; [assumption | constructor].
  - cbn [split]. destruct (c =? sep) eqn:E.
    + apply N.eqb_eq in E. subst c.
      destruct pending;
        [now rewrite wellFormedFrom_pending_plain in H|].
      rewrite wellFormedFrom_plain in H by assumption.
      destruct (IH false H) as (w & ws & Es & Hw & Hws).
      exists [], (split sep s). repeat split. rewrite Es.
      now constructor.
    + cbn [wellFormedFrom] in H. destruct pending.
      * destruct (isLowSurrogate c) eqn:Lc; [|discriminate].
        destruct (IH false H) as (w & ws & Es & Hw & Hws).
        rewrite Es. exists (c :: w), ws. repeat split; [|assumption].
        cbn [wellFormedFrom]. now rewrite Lc.
      * destruct (isHighSurrogate c) eqn:Hc.
        -- destruct (IH true H) as (w & ws & Es & Hw & Hws).
           rewrite Es. exists (c :: w), ws. repeat split; [|assumption].
           cbn [wellFormedFrom]. now rewrite Hc.
        -- destruct (isLowSurrogate c) eqn:Lc; [discriminate|].
           destruct (IH false H) as (w & ws & Es & Hw & Hws).
           rewrite Es. exists (c :: w), ws. repeat split; [|assumption].
           cbn [wellFormedFrom]. now rewrite Hc, Lc.
Qed.

Lemma split_fields_wellFormed (sep : char) (s : jsstring) :
  isHighSurrogate sep = false -> isLowSurrogate sep = false ->
  isWellFormed s = true ->
  Forall (fun x => isWellFormed x = true) (split sep s).
Proof.
  intros Hh Hl H.
  destruct (split_wellFormed sep s Hh Hl false H) as (w & ws & -> & Hw & Hws).
  now constructor.
Qed.

Lemma join_wellFormed (a : list jsstring) :
  Forall (fun x => isWellFormed x = true) a ->
  isWellFormed (join LF a) = true.
Proof.
  induction 1 as [|s a Hs Ha IH]; [reflexivity|].
  destruct a as [|s' a]; [exact Hs|].
  rewrite join_cons by discriminate. unfold isWellFormed.
  rewrite wellFormedFrom_app by exact Hs.
  rewrite wellFormedFrom_plain by reflexivity. exact IH.
Qed.

Lemma existingTopics_wellFormed (file : option jsstring) :
  file_wellFormed file ->
  Forall (fun x => isWellFormed x = true) (existingTopics file).
Proof.
  destruct file as [content|]; intros H; [|constructor].
  apply Forall_forall. intros t Ht. apply filter_In in Ht.
  destruct Ht as [Ht _].
  exact (proj1 (Forall_forall _ _)
           (split_fields_wellFormed LF content eq_refl eq_refl H) t Ht).
Qed.

Lemma newTopics_wellFormed (answers_topics : jsstring) :
  isWellFormed answers_topics = true ->
  Forall (fun x => isWellFormed x = true) (newTopics answers_topics).
Proof.
  intros H. apply Forall_forall. intros t Ht.
  unfold newTopics in Ht. apply in_map_iff in Ht.
  destruct Ht as (f & <- & Hf). apply trim_wellFormed.
  exact (proj1 (Forall_forall _ _)
           (split_fields_wellFormed COMMA answers_topics eq_refl eq_refl H)
           f Hf).
Qed.

(** ** Saving and loading *)

(** Closing a [Forall] over an explicit list, entry by entry. *)
Ltac each_entry tac := repeat (apply Forall_cons; [tac|]); apply Forall_nil.
Ltac no_line_feed := vm_compute; intuition discriminate.

Lemma existingTopics_one_line (file : option jsstring) :
  Forall one_line (existingTopics file).
Proof.
  destruct file as [content|]; simpl; [|constructor].
  apply Forall_forall. intros t Ht. apply filter_In in Ht.
  destruct Ht as [Ht _].
  exact (proj1 (Forall_forall _ _) (split_fields LF content) t Ht).
Qed.

Lemma Load_Save (L : list jsstring) :
  Forall (fun t => t <> []) L -> Forall one_line L ->
  Forall (fun t => isWellFormed t = true) L ->
  existingTopics (writeFile_utf8 (topicsList L)) = L.
Proof.
  intros Hne Hlf Hwf. unfold writeFile_utf8, topicsList.
  rewrite toWellFormed_id by now apply join_wellFormed.
  unfold existingTopics.
  rewrite filter_split_join by assumption.
  apply filter_id. revert Hne. apply Forall_impl.
  intros t. apply Boolean_true.
Qed.

(** C4, as stated, fails: a name holding a line feed is saved on two lines
    and loaded as two names; and a name holding a surrogate that is not
    part of a pair, which UTF-8 cannot write, is loaded with U+FFFD in its
    place. *)
Lemma Save_Load_line_feed_counterexample :
  ~ (forall L : list jsstring,
       NoDup L -> Forall (fun t => t <> []) L ->
       existingTopics (writeFile_utf8 (topicsList L)) = L)
  /\ ~ (forall L : list jsstring,
          NoDup L -> Forall (fun t => t <> []) L -> Forall one_line L ->
          existingTopics (writeFile_utf8 (topicsList L)) = L).
Proof.
  split; intros H.
  - specialize (H [js "a" ++ LF :: js "b"]).
    assert (E : existingTopics
                  (writeFile_utf8 (topicsList [js "a" ++ LF :: js "b"]))
                = [js "a"; js "b"]) by reflexivity.
    rewrite E in H. discriminate H.
    + apply NoDup_cons; [simpl; tauto | apply NoDup_nil].
    + each_entry discriminate.
  - specialize (H [[55296]]).
    assert (E : existingTopics (writeFile_utf8 (topicsList [[55296]]))
                = [[REPLACEMENT]]) by reflexivity.
    rewrite E in H. discriminate H.
    + apply NoDup_cons; [simpl; tauto | apply NoDup_nil].
    + each_entry discriminate.
    + each_entry no_line_feed.
Qed.

(** C4, amended. For every sequence [L] that is duplicate-free, holds no
    empty string, no name with a line feed in it and no name with a
    surrogate outside of a pair, loading the file that saving [L] wrote, in
    UTF-8, returns [L], in [kafka:topics] and in [kafka:migrate] alike. *)
Theorem Save_Load_roundtrip (L : list jsstring) :
  NoDup L -> Forall (fun t => t <> []) L -> Forall one_line L ->
  Forall (fun t => isWellFormed t = true) L ->
  existingTopics (writeFile_utf8 (topicsList L)) = L
  /\ (forall content,
        writeFile_utf8 (topicsList L) = Some content -> topics content = L).
Proof.
  intros _ Hne Hlf Hwf.
  pose proof (Load_Save L Hne Hlf Hwf) as E. split; [exact E|].
  intros content Hc. rewrite Hc in E. exact E.
Qed.

Lemma Save_Load_roundtrip_witness :
  existingTopics (writeFile_utf8 (topicsList [js "orders"; js "payments"]))
  = [js "orders"; js "payments"].
Proof.
  refine (proj1 (Save_Load_roundtrip [js "orders"; js "payments"] _ _ _ _)).
  - repeat (apply NoDup_cons; [simpl; intuition discriminate|]).
    apply NoDup_nil.
  - each_entry discriminate.
  - each_entry no_line_feed.
  - each_entry reflexivity.
Defined.

(** C5, as stated, fails under both readings of "non-empty, trimmed
    lines": a line is returned with the white space around it. *)
Lemma Load_untrimmed_counterexample :
  ~ (forall file, existingTopics file = spec_Load file)
  /\ ~ (forall file, existingTopics file = spec_Load' file).
Proof.
  split; intros H; specialize (H (Some (js " a"))); discriminate H.
Qed.

(** C5, amended. Load returns no line when the file is absent; otherwise
    it returns, in order and as they are (white space included), the lines
    of the file that are not empty, a line being what stands between two
    line feeds: the file is its lines joined by line feeds, and of any
    lines so joined the non-empty ones come back.  [kafka:migrate] reads the
    file in the same way. *)
Theorem Load_nonempty_lines :
  existingTopics None = []
  /\ (forall content,
        Forall one_line (file_lines (Some content))
        /\ join LF (file_lines (Some content)) = content
        /\ existingTopics (Some content)
           = filter Boolean (file_lines (Some content))
        /\ topics content = existingTopics (Some content))
  /\ (forall lines,
        Forall one_line lines ->
        existingTopics (Some (join LF lines)) = filter Boolean lines)
  /\ (forall file t,
        In t (existingTopics file) -> t <> [] /\ one_line t).
Proof.
  split; [reflexivity|]. split; [|split].
  - intros content. simpl. repeat split.
    + apply split_fields.
    + apply join_split.
  - intros lines H. now apply filter_split_join.
  - intros file t Ht. split.
    + destruct file as [content|]; simpl in Ht; [|contradiction].
      apply filter_In in Ht. now apply Boolean_true.
    + exact (proj1 (Forall_forall _ _) (existingTopics_one_line file) t Ht).
Qed.

Lemma Load_nonempty_lines_witness :
  existingTopics (Some (join LF [js " a "; []; js "b"])) = [js " a "; js "b"].
Proof.
  refine (proj1 (proj2 (proj2 Load_nonempty_lines))
            [js " a "; []; js "b"] _).
  each_entry no_line_feed.
Defined.

(** ** [kafka:topics] *)

Lemma split_In (sep c : char) (s w : jsstring) :
  In w (split sep s) -> In c w -> In c s.
Proof.
  revert w; induction s as [|d s IH]; simpl; intros w Hw Hc.
  - destruct Hw as [<-|[]]. assumption.
  - destruct (d =? sep).
    + destruct Hw as [<-|Hw]; [destruct Hc | right; eauto].
    + destruct (split sep s) as [|v vs].
      * destruct Hw as [<-|[]]. destruct Hc as [->|[]]. now left.
      * destruct Hw as [<-|Hw].
        -- destruct Hc as [->|Hc]; [now left | right].
           apply (IH v); [now left | assumption].
        -- right. apply (IH w); [now right | assumption].
Qed.

Lemma newTopics_one_line (answers_topics : jsstring) :
  one_line answers_topics -> Forall one_line (newTopics answers_topics).
Proof.
  intros H. apply Forall_forall. intros t Ht Hlf.
  unfold newTopics in Ht. apply in_map_iff in Ht.
  destruct Ht as (f & <- & Hf).
  apply H. apply (split_In COMMA LF _ f Hf). now apply trim_In.
Qed.

(** What the next load finds after [kafka:topics], on an answer of one
    line that is a well-formed string and a file that was read as UTF-8:
    the names loaded before, then the non-empty candidates, each name at its
    first appearance. *)
Lemma kafka_topics_registry (answers_topics : jsstring)
    (file : option jsstring) :
  one_line answers_topics ->
  isWellFormed answers_topics = true ->
  file_wellFormed file ->
  existingTopics (fst (generateTopicsList answers_topics file))
  = first_appearances (existingTopics file ++ spec_candidates answers_topics).
Proof.
  intros H Hwf Hfile. unfold generateTopicsList, fst, writeFile_utf8.
  assert (Hc : forall t,
             In t (combinedTopics (existingTopics file)
                     (newTopics answers_topics)) ->
             one_line t /\ isWellFormed t = true).
  { intros t Ht. apply combinedTopics_In in Ht. destruct Ht as [Ht|Ht].
    - split.
      + exact (proj1 (Forall_forall _ _) (existingTopics_one_line file) t Ht).
      + exact (proj1 (Forall_forall _ _)
                 (existingTopics_wellFormed file Hfile) t Ht).
    - split.
      + exact (proj1 (Forall_forall _ _)
                 (newTopics_one_line answers_topics H) t Ht).
      + exact (proj1 (Forall_forall _ _)
                 (newTopics_wellFormed answers_topics Hwf) t Ht). }
  unfold topicsList. rewrite toWellFormed_id.
  - unfold existingTopics at 1. rewrite filter_split_join.
    + unfold combinedTopics, Array_from.
      rewrite new_Set_first_appearances, <- first_appearances_filter.
      rewrite filter_app. f_equal. f_equal.
      destruct file as [content|]; [|reflexivity].
      apply filter_id, filter_Forall.
    + apply Forall_forall. intros t Ht. now apply Hc.
  - apply join_wellFormed, Forall_forall. intros t Ht. now apply Hc.
Qed.

(** The end-to-end run of the specification: orders,payments on no
    registry, then payments,refunds. *)
Example kafka_topics_twice :
  let file1 := fst (generateTopicsList (js "orders,payments") None) in
  let file2 := fst (generateTopicsList (js "payments,refunds") file1) in
  file1 = Some (js "orders" ++ LF :: js "payments")
  /\ file2 = Some (js "orders" ++ LF :: js "payments" ++ LF :: js "refunds").
Proof. split; reflexivity. Qed.

(** C1. The registry file can hold an empty entry after [kafka:topics]:
    on the answer "x, , y" and no file, the file written is x, an empty
    line, y; its entries are not the non-empty candidates x and y. *)
Theorem kafka_topics_writes_empty_entry :
  let file := fst (generateTopicsList (js "x, , y") None) in
  file = Some (js "x" ++ [LF; LF] ++ js "y")
  /\ file_lines file = [js "x"; []; js "y"]
  /\ In [] (file_lines file)
  /\ file_lines file <> [js "x"; js "y"].
Proof.
  cbv zeta. repeat split; try reflexivity.
  - right. left. reflexivity.
  - discriminate.
Qed.

(** C2. The empty candidate is not dropped before the merge: on the answer
    "x, , y" the candidates merged are x, the empty string and y, where the
    specification's parsing gives x and y, and the merged sequence written
    to the file has three entries. *)
Theorem kafka_topics_merges_empty_candidate :
  newTopics (js "x, , y") = [js "x"; []; js "y"]
  /\ spec_candidates (js "x, , y") = [js "x"; js "y"]
  /\ combinedTopics (existingTopics None) (newTopics (js "x, , y"))
     = [js "x"; []; js "y"]
  /\ combinedTopics (existingTopics None) (newTopics (js "x, , y"))
     <> combinedTopics (existingTopics None) (spec_candidates (js "x, , y"))
  /\ fst (generateTopicsList (js "x, , y") None)
     <> Some (topicsList [js "x"; js "y"]).
Proof.
  repeat split; try reflexivity; discriminate.
Qed.

(** * The topic migrator *)

Section Migrator.
Context {World : Type}.
Variable exec : jsstring -> World -> settled * World.

Lemma createTopic_resolved (topic stdout : jsstring) (w w' : World)
    (tr : list event) :
  exec (createTopicCommand topic) w = (Resolved stdout, w') ->
  createTopic exec topic {| world := w; trace := tr |}
  = (Normal tt, {| world := w'; trace := tr ++ created topic |}).
Proof.
  intros H. unfold createTopic, bind, console_log, emit, execPromise.
  cbn [world trace]. rewrite H. cbn [world trace].
  now rewrite <- !app_assoc.
Qed.

Lemma createTopic_rejected (topic message : jsstring) (w w' : World)
    (tr : list event) :
  exec (createTopicCommand topic) w = (Rejected message, w') ->
  createTopic exec topic {| world := w; trace := tr |}
  = (Throw message,
     {| world := w';
        trace := tr ++ [ConsoleLog
                          (js "Creating the topic " ++ topic ++ js "...");
                        Exec (createTopicCommand topic)] |}).
Proof.
  intros H. unfold createTopic, bind, console_log, emit, execPromise.
  cbn [world trace]. rewrite H. now rewrite <- !app_assoc.
Qed.

(** The loop over topics whose creation succeeds. *)
Lemma for_of_all_created (ts : list jsstring) :
  forall (w w' : World) (tr : list event),
    all_created exec ts w w' ->
    for_of ts (createTopic exec) {| world := w; trace := tr |}
    = (Normal tt, {| world := w'; trace := tr ++ flat_map created ts |}).
Proof.
  induction ts as [|t ts IH]; intros w w' tr H; simpl in H.
  - subst w'. simpl. unfold ret. now rewrite app_nil_r.
  - destruct H as (stdout & w1 & Ht & Hts).
    cbn [for_of]. unfold bind at 1.
    rewrite (createTopic_resolved _ _ _ _ _ Ht).
    rewrite (IH _ _ _ Hts). cbn [flat_map].
    now rewrite app_assoc.
Qed.

(** The loop stops at the first topic whose creation is rejected. *)
Lemma for_of_first_rejected (pre : list jsstring) :
  forall (tk : jsstring) (post : list jsstring) (w w1 w2 : World)
         (message : jsstring) (tr : list event),
    all_created exec pre w w1 ->
    exec (createTopicCommand tk) w1 = (Rejected message, w2) ->
    for_of (pre ++ tk :: post) (createTopic exec)
      {| world := w; trace := tr |}
    = (Throw message,
       {| world := w2;
          trace := tr ++ flat_map created pre
                   ++ [ConsoleLog
                         (js "Creating the topic " ++ tk ++ js "...");
                       Exec (createTopicCommand tk)] |}).
Proof.
  induction pre as [|t pre IH]; intros tk post w w1 w2 message tr H Hk;
    simpl in H.
  - subst w1. cbn [app for_of flat_map]. unfold bind at 1.
    now rewrite (createTopic_rejected _ _ _ _ _ Hk).
  - destruct H as (stdout & w' & Ht & Hpre).
    cbn [app for_of flat_map]. unfold bind at 1.
    rewrite (createTopic_resolved _ _ _ _ _ Ht).
    rewrite (IH tk post _ _ _ message _ Hpre Hk).
    now rewrite <- !app_assoc.
Qed.

Lemma commands_app (tr tr' : list event) :
  commands (tr ++ tr') = commands tr ++ commands tr'.
Proof. apply flat_map_app. Qed.

Lemma errors_app (tr tr' : list event) :
  errors (tr ++ tr') = errors tr ++ errors tr'.
Proof. apply flat_map_app. Qed.

Lemma commands_created (ts : list jsstring) :
  commands (flat_map created ts) = map createTopicCommand ts.
Proof.
  induction ts as [|t ts IH]; [reflexivity|].
  cbn [flat_map map]. rewrite commands_app, IH. reflexivity.
Qed.

Lemma errors_created (ts : list jsstring) :
  errors (flat_map created ts) = [].
Proof.
  induction ts as [|t ts IH]; [reflexivity|].
  cbn [flat_map]. rewrite errors_app, IH. reflexivity.
Qed.

Lemma kafkaMigrate_first_rejected
    (content : jsstring) (pre : list jsstring) (tk : jsstring)
    (post : list jsstring) (w w1 w2 : World) (message : jsstring) :
  existingTopics (Some content) = pre ++ tk :: post ->
  all_created exec pre w w1 ->
  exec (createTopicCommand tk) w1 = (Rejected message, w2) ->
  run (kafkaMigrate exec (Some content)) w
  = {| world := w2;
       trace := flat_map created pre
                ++ [ConsoleLog (js "Creating the topic " ++ tk ++ js "...");
                    Exec (createTopicCommand tk);
                    ConsoleError (js "Error:" ++ SPACE :: message)] |}.
Proof.
  intros Hreg Hpre Hk.
  unfold run, kafkaMigrate, try_catch, topics.
  change (filter Boolean (split LF content))
    with (existingTopics (Some content)).
  rewrite Hreg, (for_of_first_rejected _ _ _ _ _ _ _ _ Hpre Hk).
  unfold console_error2, emit, chalk_red. cbn [snd world trace app].
  now rewrite <- app_assoc.
Qed.

(** C6. When the registry is t1..tn, the creation of t1..t(k-1) succeeds
    and that of tk is rejected, [kafka:migrate] dispatches the creation
    commands of t1..tk, in this order, and no other command; it reports
    the rejection, and nothing else, as an error; it leaves the world as
    the rejected command left it.  So over the registry orders, payments,
    when the creation of orders is rejected, the creation of orders is
    attempted once, that of payments never, and one error is reported. *)
Theorem kafkaMigrate_halts_at_first_failure :
  (forall (content : jsstring) (pre : list jsstring) (tk : jsstring)
          (post : list jsstring) (w w1 w2 : World) (message : jsstring),
      existingTopics (Some content) = pre ++ tk :: post ->
      all_created exec pre w w1 ->
      exec (createTopicCommand tk) w1 = (Rejected message, w2) ->
      let s := run (kafkaMigrate exec (Some content)) w in
      commands (trace s) = map createTopicCommand (pre ++ [tk])
      /\ errors (trace s) = [js "Error:" ++ SPACE :: message]
      /\ world s = w2)
  /\ (forall (w w2 : World) (message : jsstring),
         exec (createTopicCommand (js "orders")) w = (Rejected message, w2) ->
         let s := run (kafkaMigrate exec
                         (Some (js "orders" ++ LF :: js "payments"))) w in
         count_occ (list_eq_dec N.eq_dec) (commands (trace s))
           (createTopicCommand (js "orders")) = 1%nat
         /\ count_occ (list_eq_dec N.eq_dec) (commands (trace s))
              (createTopicCommand (js "payments")) = 0%nat
         /\ List.length (errors (trace s)) = 1%nat).
Proof.
  split.
  - intros content pre tk post w w1 w2 message Hreg Hpre Hk. cbv zeta.
    rewrite (kafkaMigrate_first_rejected _ _ _ _ _ _ _ _ Hreg Hpre Hk).
    cbn [world trace].
    rewrite !commands_app, !errors_app, commands_created, errors_created.
    rewrite map_app. repeat split.
  - intros w w2 message Hk s.
    pose proof (kafkaMigrate_first_rejected
                  (js "orders" ++ LF :: js "payments")
                  [] (js "orders") [js "payments"]
                  w w w2 message eq_refl eq_refl Hk) as E.
    change (run _ w) with s in E. clearbody s. subst s.
    repeat split.
Qed.

(** C7. Without a registry file [kafka:migrate] reports that the file does
    not exist and does nothing else: no command is dispatched and the
    world is untouched. *)
Theorem kafkaMigrate_without_registry (w : World) :
  run (kafkaMigrate exec None) w
  = {| world := w;
       trace := [ConsoleError
                   (js "Error: The topics.txt file does not exist.")] |}
  /\ commands (trace (run (kafkaMigrate exec None) w)) = [].
Proof. split; reflexivity. Qed.

(** C10. With a registry file that holds no non-empty line,
    [kafka:migrate] dispatches no command and prints nothing, no error
    either, where the absent file is reported as an error. *)
Theorem kafkaMigrate_empty_registry (content : jsstring) (w : World) :
  existingTopics (Some content) = [] ->
  run (kafkaMigrate exec (Some content)) w = {| world := w; trace := [] |}
  /\ errors (trace (run (kafkaMigrate exec None) w)) <> [].
Proof.
  intros H. split; [|discriminate].
  unfold run, kafkaMigrate, try_catch, topics.
  change (filter Boolean (split LF content))
    with (existingTopics (Some content)).
  now rewrite H.
Qed.
End Migrator.

(** * The container lifecycle *)

Section Lifecycle.
Context {World : Type}.
Variable exec : jsstring -> World -> settled * World.

(** C8. When the probe answers with a container id (the container
    exists, stopped or running), [kafka:create] says that the container
    already exists and dispatches nothing after the probe.  When the probe
    answers with nothing, it dispatches after the probe one command, the
    creation of [kafka-server] from the image [apache/kafka:3.8.0] with
    port 9092 published as 9092. *)
Theorem createKafkaContainer_probe (w w1 : World) (stdout : jsstring) :
  exec (psAllCommand containerName) w = (Resolved stdout, w1) ->
  let s := run (createKafkaContainer exec) w in
  (trim stdout <> [] ->
   s = {| world := w1;
          trace := [Exec (psAllCommand containerName);
                    ConsoleLog
                      (js "The container kafka-server already exists.")] |}
   /\ commands (trace s) = [psAllCommand containerName])
  /\ (trim stdout = [] ->
      commands (trace s)
      = [psAllCommand containerName; runCommand containerName imageName]
      /\ count_occ (list_eq_dec N.eq_dec) (commands (trace s))
           (runCommand containerName imageName) = 1%nat)
  /\ psAllCommand containerName = js "docker ps -aq -f name=kafka-server"
  /\ runCommand containerName imageName
     = js "docker run -d --name kafka-server -p 9092:9092 -e ALLOW_PLAINTEXT_LISTENER=yes apache/kafka:3.8.0".
Proof.
  intros H. cbv zeta.
  unfold run, createKafkaContainer, try_catch, bind, execPromise.
  cbn [world trace]. rewrite H.
  split; [|split; [|split; reflexivity]].
  - intros Hex. destruct (trim stdout) as [|c t]; [congruence|].
    split; reflexivity.
  - intros ->. cbn [Boolean].
    unfold console_log, emit. cbn [world trace].
    destruct (exec (runCommand containerName imageName) w1) as [[out|msg] w2];
      split; reflexivity.
Qed.

(** C9. [kafka:start], by what the two probes answer.  No container:
    the error "The container does not exist." and nothing after the
    probe.  A running container: "already running" and nothing after the
    probes.  A stopped container: one start command after the probes.  And
    the start command is dispatched only when the first probe finds the
    container and the second finds it not running. *)
Theorem startKafkaContainer_probes (w : World) :
  let s := run (startKafkaContainer exec) w in
  (forall stdout w1,
      exec (psAllCommand containerName) w = (Resolved stdout, w1) ->
      trim stdout = [] ->
      s = {| world := w1;
             trace := [Exec (psAllCommand containerName);
                       ConsoleError
                         (js "Error: The container does not exist.")] |})
  /\ (forall stdout w1 isRunning w2,
         exec (psAllCommand containerName) w = (Resolved stdout, w1) ->
         trim stdout <> [] ->
         exec (psRunningCommand containerName) w1
         = (Resolved isRunning, w2) ->
         (trim isRunning <> [] ->
          s = {| world := w2;
                 trace := [Exec (psAllCommand containerName);
                           Exec (psRunningCommand containerName);
                           ConsoleLog
                             (js "The container kafka-server is already running.")] |})
         /\ (trim isRunning = [] ->
             commands (trace s)
             = [psAllCommand containerName;
                psRunningCommand containerName;
                startCommand containerName]))
  /\ (In (Exec (startCommand containerName)) (trace s) <->
      exists stdout w1 isRunning w2,
        exec (psAllCommand containerName) w = (Resolved stdout, w1)
        /\ trim stdout <> []
        /\ exec (psRunningCommand containerName) w1
           = (Resolved isRunning, w2)
        /\ trim isRunning = [])
  /\ startCommand containerName = js "docker start kafka-server".
Proof.
  cbv zeta.
  unfold run, startKafkaContainer, try_catch, bind, execPromise.
  cbn [world trace].
  split; [|split; [|split; [|reflexivity]]].
  - intros stdout w1 H E. rewrite H, E. reflexivity.
  - intros stdout w1 isRunning w2 H E H2. rewrite H.
    destruct (trim stdout) as [|c t]; [congruence|].
    cbn [Boolean negb world trace]. rewrite H2. split.
    + intros E2. destruct (trim isRunning) as [|c2 t2]; [congruence|].
      reflexivity.
    + intros ->. cbn [Boolean]. unfold console_log, emit.
      cbn [world trace].
      destruct (exec (startCommand containerName) w2) as [[out|msg] w3];
        reflexivity.
  - destruct (exec (psAllCommand containerName) w) as [[stdout|msg] w1]
      eqn:H.
    + destruct (trim stdout) as [|c t] eqn:E; cbn [Boolean negb].
      * split.
        -- cbn. intros [F|[F|[]]]; discriminate F.
        -- intros (o & w' & r & w'' & H1 & N1 & _).
           inversion H1; subst. congruence.
      * cbn [world trace].
        destruct (exec (psRunningCommand containerName) w1)
          as [[isRunning|msg] w2] eqn:H2.
        -- destruct (trim isRunning) as [|c2 t2] eqn:E2; cbn [Boolean].
           ++ split.
              ** intros _. exists stdout, w1, isRunning, w2.
                 repeat split; congruence.
              ** intros _. unfold console_log, emit. cbn [world trace].
                 destruct (exec (startCommand containerName) w2)
                   as [[out|m] w3]; cbn; tauto.
           ++ split.
              ** cbn. intros [F|[F|[F|[]]]]; discriminate F.
              ** intros (o & w' & r & w'' & H1 & N1 & H3 & N3).
                 inversion H1; subst. rewrite H2 in H3.
                 inversion H3; subst. congruence.
        -- split.
           ++ cbn. intros [F|[F|[F|[]]]]; discriminate F.
           ++ intros (o & w' & r & w'' & H1 & N1 & H3 & N3).
              inversion H1; subst. rewrite H2 in H3. discriminate H3.
    + split.
      * cbn. intros [F|[F|[]]]; discriminate F.
      * intros (o & w' & r & w'' & H1 & _). discriminate H1.
Qed.
End Lifecycle.

(** * The handlers on the container runtime *)

Lemma kafkaMigrate_halts_at_first_failure_witness :
  let s := run (kafkaMigrate docker_exec
                  (Some (js "orders" ++ LF :: js "payments" ++ LF :: js "refunds")))
             {| kafka_server := Running; broker_topics := [js "payments"] |} in
  commands (trace s)
  = [createTopicCommand (js "orders"); createTopicCommand (js "payments")]
  /\ errors (trace s) = [js "Error: Command failed: topic already exists"]
  /\ world s
     = {| kafka_server := Running;
          broker_topics := [js "payments"; js "orders"] |}.
Proof.
  refine (proj1 (kafkaMigrate_halts_at_first_failure docker_exec)
            (js "orders" ++ LF :: js "payments" ++ LF :: js "refunds")
            [js "orders"] (js "payments") [js "refunds"]
            {| kafka_server := Running; broker_topics := [js "payments"] |}
            {| kafka_server := Running;
               broker_topics := [js "payments"; js "orders"] |}
            {| kafka_server := Running;
               broker_topics := [js "payments"; js "orders"] |}
            (js "Command failed: topic already exists") _ _ _).
  - reflexivity.
  - simpl. eexists _, _. split; reflexivity.
  - reflexivity.
Defined.

Lemma kafkaMigrate_empty_registry_witness :
  run (kafkaMigrate docker_exec (Some [LF; LF]))
    {| kafka_server := Running; broker_topics := [] |}
  = {| world := {| kafka_server := Running; broker_topics := [] |};
       trace := [] |}.
Proof.
  refine (proj1 (kafkaMigrate_empty_registry docker_exec [LF; LF] _ _)).
  reflexivity.
Defined.

Lemma createKafkaContainer_probe_witness :
  commands (trace (run (createKafkaContainer docker_exec)
                     {| kafka_server := Stopped; broker_topics := [] |}))
  = [js "docker ps -aq -f name=kafka-server"].
Proof.
  refine (proj2 (proj1 (createKafkaContainer_probe docker_exec
                          {| kafka_server := Stopped; broker_topics := [] |}
                          {| kafka_server := Stopped; broker_topics := [] |}
                          container_id _) _)).
  - reflexivity.
  - vm_compute. discriminate.
Defined.

Lemma startKafkaContainer_probes_witness :
  commands (trace (run (startKafkaContainer docker_exec)
                     {| kafka_server := Stopped; broker_topics := [] |}))
  = [js "docker ps -aq -f name=kafka-server";
     js "docker ps -q -f name=kafka-server";
     js "docker start kafka-server"].
Proof.
  refine (proj2 (proj1 (proj2 (startKafkaContainer_probes docker_exec
                                 {| kafka_server := Stopped;
                                    broker_topics := [] |}))
                   container_id
                   {| kafka_server := Stopped; broker_topics := [] |}
                   []
                   {| kafka_server := Stopped; broker_topics := [] |}
                   _ _ _) _).
  - reflexivity.
  - vm_compute. discriminate.
  - reflexivity.
  - reflexivity.
Defined.

(** * More on the topic registry *)

Lemma split_app_sep (sep : char) (s t : jsstring) :
  split sep (s ++ sep :: t) = split sep s ++ split sep t.
Proof.
  induction s as [|c s IH]; simpl.
  - now rewrite N.eqb_refl.
  - destruct (c =? sep); [now rewrite IH|].
    rewrite IH. pose proof (split_not_nil sep s) as Hne.
    destruct (split sep s) as [|w ws]; [congruence | reflexivity].
Qed.

Lemma split_length (sep : char) (s : jsstring) :
  List.length (split sep s) = S (count_occ N.eq_dec s sep).
Proof.
  induction s as [|c s IH]; simpl; [reflexivity|].
  destruct (N.eq_dec c sep) as [->|Hc].
  - rewrite N.eqb_refl. simpl. now rewrite IH.
  - apply N.eqb_neq in Hc. rewrite Hc.
    pose proof (split_not_nil sep s) as Hne.
    destruct (split sep s) as [|w ws]; [congruence | exact IH].
Qed.

Lemma trimStart_head (s : jsstring) (c : char) (r : jsstring) :
  trimStart s = c :: r -> isWhiteSpace c = false.
Proof.
  induction s as [|d s IH]; simpl; [discriminate|].
  destruct (isWhiteSpace d) eqn:E; [assumption|].
  intros H. inversion H; subst. assumption.
Qed.

Lemma trimStart_snoc (s : jsstring) (c : char) :
  isWhiteSpace c = false -> trimStart (s ++ [c]) = trimStart s ++ [c].
Proof.
  intros Hc. induction s as [|d s IH]; simpl.
  - now rewrite Hc.
  - destruct (isWhiteSpace d); [assumption | reflexivity].
Qed.

Lemma trimEnd_cons (c : char) (s : jsstring) :
  isWhiteSpace c = false -> trimEnd (c :: s) = c :: trimEnd s.
Proof.
  intros Hc. unfold trimEnd. simpl.
  now rewrite trimStart_snoc, rev_app_distr.
Qed.

Lemma trimEnd_last (s r : jsstring) (c : char) :
  trimEnd s = r ++ [c] -> isWhiteSpace c = false.
Proof.
  unfold trimEnd. intros H.
  apply (f_equal (@rev char)) in H.
  rewrite rev_involutive, rev_app_distr in H. simpl in H.
  exact (trimStart_head _ _ _ H).
Qed.

(** X1. Every candidate that [kafka:topics] reads off the answer holds no
    comma and neither starts nor ends with white space, and there is one
    candidate more than there are commas in the answer: the empty answer
    gives one candidate, the empty string. *)
Theorem newTopics_candidates (answers_topics : jsstring) :
  List.length (newTopics answers_topics)
  = S (count_occ N.eq_dec answers_topics COMMA)
  /\ forall t, In t (newTopics answers_topics) ->
       ~ In COMMA t
       /\ (forall c r, t = c :: r -> isWhiteSpace c = false)
       /\ (forall r c, t = r ++ [c] -> isWhiteSpace c = false).
Proof.
  split.
  - unfold newTopics. now rewrite length_map, split_length.
  - intros t Ht. unfold newTopics in Ht. apply in_map_iff in Ht.
    destruct Ht as (f & <- & Hf). repeat split.
    + intros Hc. apply trim_In in Hc.
      exact (proj1 (Forall_forall _ _) (split_fields COMMA answers_topics)
               f Hf Hc).
    + intros c r H. unfold trim in H.
      destruct (trimStart f) as [|d u] eqn:E; [discriminate H|].
      pose proof (trimStart_head _ _ _ E) as Hd.
      rewrite trimEnd_cons in H by assumption.
      inversion H; subst. assumption.
    + intros r c H. exact (trimEnd_last _ _ _ H).
Qed.

Lemma newTopics_candidates_witness :
  ~ In COMMA (js "y").
Proof.
  refine (proj1 (proj2 (newTopics_candidates (js "x, , y")) (js "y") _)).
  vm_compute. tauto.
Defined.

(** X2. Loading goes line by line: the file [a], a line feed, [b] loads
    as what [a] loads followed by what [b] loads, in [kafka:topics] and in
    [kafka:migrate].  So a line feed at the end of the file, or an empty
    line in it, changes nothing. *)
Theorem Load_line_by_line (a b : jsstring) :
  existingTopics (Some (a ++ LF :: b))
  = existingTopics (Some a) ++ existingTopics (Some b)
  /\ topics (a ++ LF :: b) = topics a ++ topics b
  /\ existingTopics (Some (a ++ [LF])) = existingTopics (Some a)
  /\ existingTopics (Some (a ++ LF :: LF :: b))
     = existingTopics (Some (a ++ LF :: b)).
Proof.
  assert (H : forall x y, filter Boolean (split LF (x ++ LF :: y))
                          = filter Boolean (split LF x)
                            ++ filter Boolean (split LF y))
    by (intros x y; now rewrite split_app_sep, filter_app).
  unfold existingTopics, topics. repeat split.
  - apply H.
  - apply H.
  - rewrite H. simpl. apply app_nil_r.
  - change (LF :: LF :: b) with (LF :: [] ++ LF :: b).
    now rewrite (H a), (H []), (H a).
Qed.

Lemma Set_has_ext (a b : list jsstring) (t : jsstring) :
  (forall x, In x a <-> In x b) -> Set_has a t = Set_has b t.
Proof.
  intros H. destruct (Set_has b t) eqn:E.
  - apply Set_has_In. apply H. now apply Set_has_In.
  - apply Set_has_false. intros Ha. apply H in Ha.
    apply Set_has_In in Ha. congruence.
Qed.

Lemma first_appearances_app (a b : list jsstring) :
  first_appearances (a ++ b)
  = first_appearances a
    ++ first_appearances (filter (fun t => negb (Set_has a t)) b).
Proof.
  rewrite <- (new_Set_first_appearances (a ++ b)).
  unfold new_Set. rewrite fold_left_app.
  change (fold_left Set_add a []) with (new_Set a).
  rewrite new_Set_first_appearances, fold_Set_add. do 2 f_equal.
  apply filter_ext. intros t. f_equal.
  apply Set_has_ext. intros x. apply first_appearances_In.
Qed.

Lemma first_appearances_twice (x y : list jsstring) :
  first_appearances (first_appearances x ++ y) = first_appearances (x ++ y).
Proof.
  rewrite !first_appearances_app.
  rewrite (first_appearances_id (first_appearances x))
    by apply first_appearances_NoDup.
  do 2 f_equal. apply filter_ext. intros t. f_equal.
  apply Set_has_ext. intros z. apply first_appearances_In.
Qed.

Lemma first_appearances_absorb (x c : list jsstring) :
  (forall t, In t c -> In t x) ->
  first_appearances (x ++ c) = first_appearances x.
Proof.
  intros H. rewrite first_appearances_app.
  rewrite (filter_none _ c); [apply app_nil_r|].
  intros t Ht. apply negb_false_iff, Set_has_In, H, Ht.
Qed.

Lemma spec_candidates_app (a b : jsstring) :
  spec_candidates (a ++ COMMA :: b) = spec_candidates a ++ spec_candidates b.
Proof.
  unfold spec_candidates. now rewrite split_app_sep, map_app, filter_app.
Qed.

(** X3. [kafka:topics] never drops or moves a name: on an answer of one
    line that is a well-formed string (no surrogate outside of a pair),
    the file being one that was read as UTF-8, what is loaded afterwards
    is what was loaded before (a repeated line counted at its first
    appearance), followed by the names added; every name added is a
    non-empty candidate that was not loaded before. *)
Theorem kafka_topics_only_appends (answers_topics : jsstring)
    (file : option jsstring) :
  one_line answers_topics ->
  isWellFormed answers_topics = true ->
  file_wellFormed file ->
  let after := existingTopics (fst (generateTopicsList answers_topics file)) in
  let added :=
    first_appearances
      (filter (fun t => negb (Set_has (existingTopics file) t))
         (spec_candidates answers_topics)) in
  after = first_appearances (existingTopics file) ++ added
  /\ (NoDup (existingTopics file) -> after = existingTopics file ++ added)
  /\ (forall t, In t (existingTopics file) -> In t after)
  /\ (forall t, In t added ->
        In t (newTopics answers_topics) /\ t <> []
        /\ ~ In t (existingTopics file)).
Proof.
  intros H Hwf Hfile after added. unfold after, added.
  rewrite (kafka_topics_registry _ _ H Hwf Hfile).
  split; [|split; [|split]].
  - apply first_appearances_app.
  - intros Hn. rewrite first_appearances_app. f_equal.
    now apply first_appearances_id.
  - intros t Ht. apply first_appearances_In, in_or_app. now left.
  - intros t Ht. apply first_appearances_In, filter_In in Ht.
    destruct Ht as [Hc Hn]. unfold spec_candidates in Hc.
    apply filter_In in Hc. destruct Hc as [Hc Hb].
    split; [exact Hc | split].
    + now apply Boolean_true.
    + now apply negb_true_iff, Set_has_false in Hn.
Qed.

Lemma kafka_topics_only_appends_witness :
  existingTopics
    (fst (generateTopicsList (js "payments, ,refunds")
            (Some (js "orders" ++ LF :: js "payments"))))
  = [js "orders"; js "payments"; js "refunds"].
Proof.
  refine (proj1 (kafka_topics_only_appends (js "payments, ,refunds")
                   (Some (js "orders" ++ LF :: js "payments")) _ _ _)).
  - no_line_feed.
  - reflexivity.
  - reflexivity.
Defined.

(** X4. Giving [kafka:topics] the same answer a second time, an answer of
    one line that is a well-formed string, leaves the loaded registry as
    the first time left it; the file is one that was read as UTF-8. *)
Theorem kafka_topics_same_answer_twice (answers_topics : jsstring)
    (file : option jsstring) :
  one_line answers_topics ->
  isWellFormed answers_topics = true ->
  file_wellFormed file ->
  let once := fst (generateTopicsList answers_topics file) in
  let twice := fst (generateTopicsList answers_topics once) in
  existingTopics twice = existingTopics once.
Proof.
  intros H Hwf Hfile once twice. unfold twice.
  rewrite (kafka_topics_registry _ once H Hwf)
    by apply writeFile_utf8_wellFormed.
  unfold once. rewrite (kafka_topics_registry _ _ H Hwf Hfile).
  rewrite first_appearances_twice.
  apply first_appearances_absorb. intros t Ht.
  apply in_or_app. now right.
Qed.

Lemma kafka_topics_same_answer_twice_witness :
  existingTopics
    (fst (generateTopicsList (js "x, , y")
            (fst (generateTopicsList (js "x, , y") None))))
  = existingTopics (fst (generateTopicsList (js "x, , y") None)).
Proof.
  refine (kafka_topics_same_answer_twice (js "x, , y") None _ _ _).
  - no_line_feed.
  - reflexivity.
  - exact I.
Defined.

(** X5. Two runs of [kafka:topics], on the answers [a] and then [b], each
    of one line and a well-formed string, leave the same loaded registry
    as one run on [a], a comma, [b]; the file is one that was read as
    UTF-8. *)
Theorem kafka_topics_runs_compose (a b : jsstring) (file : option jsstring) :
  one_line a -> one_line b ->
  isWellFormed a = true -> isWellFormed b = true ->
  file_wellFormed file ->
  existingTopics
    (fst (generateTopicsList b (fst (generateTopicsList a file))))
  = existingTopics (fst (generateTopicsList (a ++ COMMA :: b) file)).
Proof.
  intros Ha Hb Wa Wb Hfile.
  assert (Hab : one_line (a ++ COMMA :: b)).
  { intros Hin. apply in_app_or in Hin.
    destruct Hin as [Hin|[Hin|Hin]];
      [now apply Ha | discriminate Hin | now apply Hb]. }
  assert (Wab : isWellFormed (a ++ COMMA :: b) = true).
  { unfold isWellFormed. rewrite wellFormedFrom_app by exact Wa.
    now rewrite wellFormedFrom_plain by reflexivity. }
  rewrite (kafka_topics_registry b _ Hb Wb)
    by apply writeFile_utf8_wellFormed.
  rewrite (kafka_topics_registry a _ Ha Wa Hfile).
  rewrite (kafka_topics_registry _ _ Hab Wab Hfile).
  now rewrite first_appearances_twice, spec_candidates_app, app_assoc.
Qed.

Lemma kafka_topics_runs_compose_witness :
  existingTopics
    (fst (generateTopicsList (js "payments,refunds")
            (fst (generateTopicsList (js "orders,payments") None))))
  = existingTopics
      (fst (generateTopicsList
              (js "orders,payments" ++ COMMA :: js "payments,refunds") None)).
Proof.
  refine (kafka_topics_runs_compose (js "orders,payments")
            (js "payments,refunds") None _ _ _ _ _).
  - no_line_feed.
  - no_line_feed.
  - reflexivity.
  - reflexivity.
  - exact I.
Defined.

(** Why the answer has to be a well-formed string: a surrogate that is
    not part of a pair is written as U+FFFD, which the next run does not
    find equal to the candidate. *)
Example kafka_topics_lone_surrogate :
  let once := fst (generateTopicsList [55296] None) in
  let twice := fst (generateTopicsList [55296] once) in
  existingTopics once = [[REPLACEMENT]]
  /\ existingTopics twice = [[REPLACEMENT]; [REPLACEMENT]].
Proof. split; reflexivity. Qed.

(** * More on the migrator and the container lifecycle *)

Section Outcomes.
Context {World : Type}.
Variable exec : jsstring -> World -> settled * World.

(** The loop of [kafka:migrate] in any world: it runs to the end of the
    topics, or it throws at the first topic whose creation is rejected. *)
Lemma for_of_createTopic (ts : list jsstring) :
  forall (w : World) (tr : list event),
    (exists w',
        all_created exec ts w w'
        /\ for_of ts (createTopic exec) {| world := w; trace := tr |}
           = (Normal tt,
              {| world := w'; trace := tr ++ flat_map created ts |}))
    \/ (exists pre tk post w1 w2 message,
           ts = pre ++ tk :: post
           /\ all_created exec pre w w1
           /\ exec (createTopicCommand tk) w1 = (Rejected message, w2)).
Proof.
  induction ts as [|t ts IH]; intros w tr.
  - left. exists w. split; [reflexivity|].
    simpl. unfold ret. now rewrite app_nil_r.
  - destruct (exec (createTopicCommand t) w) as [[stdout|message] w1] eqn:E.
    + destruct (IH w1 (tr ++ created t))
        as [(w' & Hall & Hrun)
           |(pre & tk & post & wa & wb & m & -> & Hpre & Hk)].
      * left. exists w'. split.
        -- simpl. exists stdout, w1. now split.
        -- cbn [for_of]. unfold bind at 1.
           rewrite (createTopic_resolved _ _ _ _ _ _ E), Hrun.
           cbn [flat_map]. now rewrite app_assoc.
      * right. exists (t :: pre), tk, post, wa, wb, m.
        split; [reflexivity|]. split; [|assumption].
        simpl. exists stdout, w1. now split.
    + right. exists [], t, ts, w, w1, message. now repeat split.
Qed.

(** X6. When the creation of every topic of the registry succeeds,
    [kafka:migrate] dispatches one creation command a topic, in the order of
    the file and repeated lines included, prints no error, and leaves the
    world as the last command left it. *)
Theorem kafkaMigrate_all_created (content : jsstring) (w w' : World) :
  all_created exec (topics content) w w' ->
  let s := run (kafkaMigrate exec (Some content)) w in
  s = {| world := w'; trace := flat_map created (topics content) |}
  /\ commands (trace s) = map createTopicCommand (topics content)
  /\ errors (trace s) = [].
Proof.
  intros H. cbv zeta.
  assert (E : run (kafkaMigrate exec (Some content)) w
              = {| world := w';
                   trace := flat_map created (topics content) |}).
  { unfold run, kafkaMigrate, try_catch.
    now rewrite (for_of_all_created exec _ _ _ _ H). }
  rewrite E. cbn [trace].
  now rewrite commands_created, errors_created.
Qed.

(** X7. In any world and on any registry file, the commands that
    [kafka:migrate] dispatches are the creation commands of the first
    topics of the registry, in order and without a gap, and it prints at
    most one error: none when it went through all the topics, one when it
    stopped at a topic. *)
Theorem kafkaMigrate_commands_prefix (content : jsstring) (w : World) :
  let s := run (kafkaMigrate exec (Some content)) w in
  (commands (trace s) = map createTopicCommand (topics content)
   /\ errors (trace s) = [])
  \/ (exists pre tk post message,
         topics content = pre ++ tk :: post
         /\ commands (trace s) = map createTopicCommand (pre ++ [tk])
         /\ errors (trace s) = [js "Error:" ++ SPACE :: message]).
Proof.
  cbv zeta.
  destruct (for_of_createTopic (topics content) w [])
    as [(w' & Hall & _)|(pre & tk & post & w1 & w2 & m & Hts & Hpre & Hk)].
  - left.
    assert (E : run (kafkaMigrate exec (Some content)) w
                = {| world := w';
                     trace := flat_map created (topics content) |}).
    { unfold run, kafkaMigrate, try_catch.
      now rewrite (for_of_all_created exec _ _ _ _ Hall). }
    rewrite E. cbn [trace].
    now rewrite commands_created, errors_created.
  - right. exists pre, tk, post, m. split; [assumption|].
    rewrite (kafkaMigrate_first_rejected exec content pre tk post
               w w1 w2 m Hts Hpre Hk).
    cbn [trace].
    rewrite !commands_app, !errors_app, commands_created, errors_created.
    rewrite map_app. now split.
Qed.

(** X8. No handler lets an error out: whatever the commands do, the
    handlers of [kafka:create], [kafka:start] and [kafka:migrate] complete
    normally, the rejection of a command being caught and printed. *)
Theorem handlers_catch_everything (s : state World)
    (file : option jsstring) :
  fst (createKafkaContainer exec s) = Normal tt
  /\ fst (startKafkaContainer exec s) = Normal tt
  /\ fst (kafkaMigrate exec file s) = Normal tt.
Proof.
  destruct s as [w tr]. split; [|split].
  - unfold createKafkaContainer, try_catch, bind, execPromise.
    cbn [world trace].
    destruct (exec (psAllCommand containerName) w) as [[out|m] w1];
      [|reflexivity].
    destruct (Boolean (trim out)); [reflexivity|].
    unfold console_log, emit. cbn [world trace].
    destruct (exec (runCommand containerName imageName) w1) as [[o|m] w2];
      reflexivity.
  - unfold startKafkaContainer, try_catch, bind, execPromise.
    cbn [world trace].
    destruct (exec (psAllCommand containerName) w) as [[out|m] w1];
      [|reflexivity].
    destruct (Boolean (trim out)); [|reflexivity]. cbn [negb world trace].
    destruct (exec (psRunningCommand containerName) w1) as [[r|m] w2];
      [|reflexivity].
    destruct (Boolean (trim r)); [reflexivity|].
    unfold console_log, emit. cbn [world trace].
    destruct (exec (startCommand containerName) w2) as [[o|m] w3];
      reflexivity.
  - unfold kafkaMigrate, try_catch. destruct file as [content|];
      [|reflexivity].
    destruct (for_of_createTopic (topics content) w tr)
      as [(w' & _ & ->)|(pre & tk & post & w1 & w2 & m & -> & Hpre & Hk)];
      [reflexivity|].
    now rewrite (for_of_first_rejected exec _ _ _ _ _ _ _ _ Hpre Hk).
Qed.
End Outcomes.

Lemma kafkaMigrate_all_created_witness :
  commands
    (trace (run (kafkaMigrate docker_exec
                   (Some (js "orders" ++ LF :: js "payments")))
              {| kafka_server := Running; broker_topics := [] |}))
  = [createTopicCommand (js "orders"); createTopicCommand (js "payments")].
Proof.
  refine (proj1 (proj2 (kafkaMigrate_all_created docker_exec
                          (js "orders" ++ LF :: js "payments")
                          {| kafka_server := Running; broker_topics := [] |}
                          {| kafka_server := Running;
                             broker_topics := [js "orders"; js "payments"] |}
                          _))).
  simpl. eexists _, _. split; [reflexivity|].
  eexists _, _. split; reflexivity.
Defined.

Section Probing.
Context {World : Type}.
Variable exec : jsstring -> World -> settled * World.

(** X9. In any world, [kafka:create] dispatches the probe and then at most
    the creation command, and [kafka:start] the probe, then at most the
    second probe, then at most the start command: nothing is done before the
    state of the container is asked for, [kafka:start] never dispatches a
    creation and [kafka:create] never a start. *)
Theorem lifecycle_commands (w : World) :
  let create := commands (trace (run (createKafkaContainer exec) w)) in
  let start := commands (trace (run (startKafkaContainer exec) w)) in
  (create = [psAllCommand containerName]
   \/ create = [psAllCommand containerName;
                runCommand containerName imageName])
  /\ (start = [psAllCommand containerName]
      \/ start = [psAllCommand containerName;
                  psRunningCommand containerName]
      \/ start = [psAllCommand containerName;
                  psRunningCommand containerName;
                  startCommand containerName])
  /\ ~ In (runCommand containerName imageName) start
  /\ ~ In (startCommand containerName) create.
Proof.
  cbv zeta.
  assert (C : let create :=
                commands (trace (run (createKafkaContainer exec) w)) in
              create = [psAllCommand containerName]
              \/ create = [psAllCommand containerName;
                           runCommand containerName imageName]).
  { cbv zeta.
    unfold run, createKafkaContainer, try_catch, bind, execPromise.
    cbn [world trace].
    destruct (exec (psAllCommand containerName) w) as [[out|m] w1];
      [|now left].
    destruct (Boolean (trim out)); [now left|].
    unfold console_log, emit. cbn [world trace].
    destruct (exec (runCommand containerName imageName) w1) as [[o|m] w2];
      now right. }
  assert (St : let start :=
                commands (trace (run (startKafkaContainer exec) w)) in
              start = [psAllCommand containerName]
              \/ start = [psAllCommand containerName;
                          psRunningCommand containerName]
              \/ start = [psAllCommand containerName;
                          psRunningCommand containerName;
                          startCommand containerName]).
  { cbv zeta.
    unfold run, startKafkaContainer, try_catch, bind, execPromise.
    cbn [world trace].
    destruct (exec (psAllCommand containerName) w) as [[out|m] w1];
      [|now left].
    destruct (Boolean (trim out)); [|now left]. cbn [negb world trace].
    destruct (exec (psRunningCommand containerName) w1) as [[r|m] w2];
      [|now right; left].
    destruct (Boolean (trim r)); [now right; left|].
    unfold console_log, emit. cbn [world trace].
    destruct (exec (startCommand containerName) w2) as [[o|m] w3];
      now right; right. }
  cbv zeta in C, St. split; [exact C|]. split; [exact St|]. split.
  - destruct St as [-> | [-> | ->]]; vm_compute; intuition discriminate.
  - destruct C as [-> | ->]; vm_compute; intuition discriminate.
Qed.

(** X10. [kafka:create] when a command fails.  A rejected probe is
    printed as an error and nothing is created.  A rejected creation is
    printed as an error, after the announcement and in place of the message
    of success. *)
Theorem createKafkaContainer_rejections (w w1 : World) :
  (forall message,
      exec (psAllCommand containerName) w = (Rejected message, w1) ->
      run (createKafkaContainer exec) w
      = {| world := w1;
           trace := [Exec (psAllCommand containerName);
                     ConsoleError (js "Error:" ++ SPACE :: message)] |})
  /\ (forall stdout w2 message,
         exec (psAllCommand containerName) w = (Resolved stdout, w1) ->
         trim stdout = [] ->
         exec (runCommand containerName imageName) w1
         = (Rejected message, w2) ->
         run (createKafkaContainer exec) w
         = {| world := w2;
              trace := [Exec (psAllCommand containerName);
                        ConsoleLog
                          (js "Creating the container kafka-server...");
                        Exec (runCommand containerName imageName);
                        ConsoleError (js "Error:" ++ SPACE :: message)] |}).
Proof.
  split.
  - intros message H.
    unfold run, createKafkaContainer, try_catch, bind, execPromise.
    cbn [world trace]. now rewrite H.
  - intros stdout w2 message H E H2.
    unfold run, createKafkaContainer, try_catch, bind, execPromise.
    cbn [world trace]. rewrite H, E. cbn [Boolean].
    unfold console_log, emit. cbn [world trace]. now rewrite H2.
Qed.

(** X11. [kafka:start] when a command fails.  A rejected probe, the first
    or the second, is printed as an error and the container is not started.
    A rejected start is printed as an error, in place of the message of
    success. *)
Theorem startKafkaContainer_rejections (w w1 : World) :
  (forall message,
      exec (psAllCommand containerName) w = (Rejected message, w1) ->
      run (startKafkaContainer exec) w
      = {| world := w1;
           trace := [Exec (psAllCommand containerName);
                     ConsoleError (js "Error:" ++ SPACE :: message)] |})
  /\ (forall stdout w2 message,
         exec (psAllCommand containerName) w = (Resolved stdout, w1) ->
         trim stdout <> [] ->
         exec (psRunningCommand containerName) w1 = (Rejected message, w2) ->
         run (startKafkaContainer exec) w
         = {| world := w2;
              trace := [Exec (psAllCommand containerName);
                        Exec (psRunningCommand containerName);
                        ConsoleError (js "Error:" ++ SPACE :: message)] |})
  /\ (forall stdout w2 isRunning w3 message,
         exec (psAllCommand containerName) w = (Resolved stdout, w1) ->
         trim stdout <> [] ->
         exec (psRunningCommand containerName) w1
         = (Resolved isRunning, w2) ->
         trim isRunning = [] ->
         exec (startCommand containerName) w2 = (Rejected message, w3) ->
         run (startKafkaContainer exec) w
         = {| world := w3;
              trace := [Exec (psAllCommand containerName);
                        Exec (psRunningCommand containerName);
                        ConsoleLog
                          (js "Starting the container kafka-server...");
                        Exec (startCommand containerName);
                        ConsoleError (js "Error:" ++ SPACE :: message)] |}).
Proof.
  split; [|split].
  - intros message H.
    unfold run, startKafkaContainer, try_catch, bind, execPromise.
    cbn [world trace]. now rewrite H.
  - intros stdout w2 message H E H2.
    unfold run, startKafkaContainer, try_catch, bind, execPromise.
    cbn [world trace]. rewrite H.
    destruct (trim stdout) as [|c t]; [congruence|].
    cbn [Boolean negb world trace]. now rewrite H2.
  - intros stdout w2 isRunning w3 message H E H2 E2 H3.
    unfold run, startKafkaContainer, try_catch, bind, execPromise.
    cbn [world trace]. rewrite H.
    destruct (trim stdout) as [|c t]; [congruence|].
    cbn [Boolean negb world trace]. rewrite H2, E2. cbn [Boolean].
    unfold console_log, emit. cbn [world trace]. now rewrite H3.
Qed.
End Probing.

(** A world without a container runtime: every command is rejected. *)
Lemma createKafkaContainer_rejections_witness :
  run (createKafkaContainer
         (fun _ (w : unit) => (Rejected (js "docker: not found"), w))) tt
  = {| world := tt;
       trace := [Exec (js "docker ps -aq -f name=kafka-server");
                 ConsoleError (js "Error: docker: not found")] |}.
Proof.
  refine (proj1 (createKafkaContainer_rejections
                   (fun _ (w : unit) => (Rejected (js "docker: not found"), w))
                   tt tt) (js "docker: not found") _).
  reflexivity.
Defined.

Lemma startKafkaContainer_rejections_witness :
  run (startKafkaContainer
         (fun _ (w : unit) => (Rejected (js "docker: not found"), w))) tt
  = {| world := tt;
       trace := [Exec (js "docker ps -aq -f name=kafka-server");
                 ConsoleError (js "Error: docker: not found")] |}.
Proof.
  refine (proj1 (startKafkaContainer_rejections
                   (fun _ (w : unit) => (Rejected (js "docker: not found"), w))
                   tt tt) (js "docker: not found") _).
  reflexivity.
Defined.

(** * The bearer token *)

Lemma hexDigit_isHex (n : N) : n < 16 -> isHex (hexDigit n) = true.
Proof.
  intros H. unfold hexDigit, isHex.
  destruct (n <? 10) eqn:E.
  - apply N.ltb_lt in E. apply orb_true_iff. left.
    apply andb_true_iff. split; apply N.leb_le; lia.
  - apply N.ltb_ge in E. apply orb_true_iff. right.
    apply andb_true_iff. split; apply N.leb_le; lia.
Qed.

Lemma hexDigit_inj (n m : N) :
  n < 16 -> m < 16 -> hexDigit n = hexDigit m -> n = m.
Proof.
  unfold hexDigit. intros Hn Hm.
  destruct (n <? 10) eqn:En, (m <? 10) eqn:Em;
    try apply N.ltb_lt in En; try apply N.ltb_ge in En;
    try apply N.ltb_lt in Em; try apply N.ltb_ge in Em; lia.
Qed.

Lemma byte_bounded (b : Byte.byte) : Byte.to_N b < 256.
Proof. destruct b; vm_compute; reflexivity. Qed.

Lemma toString_hex_isHex (buffer : list Byte.byte) :
  forallb isHex (toString_hex buffer) = true.
Proof.
  induction buffer as [|b l IH]; [reflexivity|].
  pose proof (byte_bounded b) as Hb.
  cbn [toString_hex flat_map app forallb].
  rewrite !hexDigit_isHex.
  - exact IH.
  - apply N.mod_lt. discriminate.
  - apply N.Div0.div_lt_upper_bound. exact Hb.
Qed.

Lemma escapeSlashes_hex (s : jsstring) :
  forallb isHex s = true -> escapeSlashes s = s.
Proof.
  induction s as [|c s IH]; [reflexivity|]. cbn [forallb].
  intros H. apply andb_true_iff in H. destruct H as [Hc Hs].
  cbn [escapeSlashes flat_map].
  destruct (c =? SLASH) eqn:E.
  - apply N.eqb_eq in E. subst c. discriminate Hc.
  - cbn [app]. f_equal. now apply IH.
Qed.

Lemma isHex_neither (c : char) :
  isHex c = true -> c <> DOLLAR /\ isLineTerminator c = false.
Proof.
  unfold isHex, DOLLAR, isLineTerminator. intros H.
  apply orb_true_iff in H.
  destruct H as [H|H]; apply andb_true_iff in H; destruct H as [H1 H2];
    apply N.leb_le in H1; apply N.leb_le in H2.
  all: split; [lia|].
  all: repeat (apply orb_false_iff; split); apply N.eqb_neq; lia.
Qed.

Lemma token_is_hex_parts (randomBytes : list Byte.byte) :
  forallb isHex (generateRandomToken randomBytes) = true
  /\ escapeSlashes (generateRandomToken randomBytes)
     = generateRandomToken randomBytes.
Proof.
  pose proof (toString_hex_isHex randomBytes) as Hx.
  split; [exact Hx | now apply escapeSlashes_hex].
Qed.

(** X12. The token of [make:token] is two lowercase hexadecimal digits for
    every random byte, 128 of them for the 64 bytes drawn; it holds no
    slash, so that escaping leaves it as it is: the hash written to [.env]
    is the token itself; and it holds no dollar sign and no line
    terminator. *)
Theorem token_is_hex (randomBytes : list Byte.byte) :
  let token := generateRandomToken randomBytes in
  List.length token = (2 * List.length randomBytes)%nat
  /\ (List.length randomBytes = 64%nat -> List.length token = 128%nat)
  /\ forallb isHex token = true
  /\ escapeSlashes token = token
  /\ ~ In DOLLAR token
  /\ forallb (fun c => negb (isLineTerminator c)) token = true.
Proof.
  cbv zeta. unfold generateRandomToken.
  assert (L : List.length (toString_hex randomBytes)
              = (2 * List.length randomBytes)%nat).
  { induction randomBytes as [|b l IH]; [reflexivity|].
    cbn [toString_hex flat_map app List.length].
    change (flat_map _ l) with (toString_hex l). rewrite IH. lia. }
  pose proof (toString_hex_isHex randomBytes) as Hx.
  split; [exact L|]. split; [intros H; rewrite L, H; reflexivity|].
  split; [exact Hx|]. split; [now apply escapeSlashes_hex|].
  rewrite forallb_forall in Hx. split.
  - intros Hin. apply Hx in Hin. now apply isHex_neither in Hin.
  - apply forallb_forall. intros c Hc. apply Hx in Hc.
    apply isHex_neither in Hc. destruct Hc as [_ ->]. reflexivity.
Qed.

Lemma token_is_hex_witness :
  List.length (generateRandomToken (repeat Byte.xa7 64)) = 128%nat.
Proof.
  refine (proj1 (proj2 (token_is_hex (repeat Byte.xa7 64))) _).
  reflexivity.
Defined.

Lemma token_injective_bytes (a b : list Byte.byte) :
  generateRandomToken a = generateRandomToken b -> a = b.
Proof.
  unfold generateRandomToken. revert b.
  induction a as [|x a IH]; intros [|y b]; try discriminate;
    [reflexivity|].
  cbn [toString_hex flat_map app]. intros H.
  injection H as H1 H2 H3.
  pose proof (byte_bounded x) as Bx. pose proof (byte_bounded y) as By.
  apply hexDigit_inj in H1;
    [|apply N.Div0.div_lt_upper_bound; assumption
     |apply N.Div0.div_lt_upper_bound; assumption].
  apply hexDigit_inj in H2; [|apply N.mod_lt; discriminate
                             |apply N.mod_lt; discriminate].
  f_equal; [|now apply IH].
  assert (E : Byte.to_N x = Byte.to_N y).
  { rewrite (N.div_mod (Byte.to_N x) 16), (N.div_mod (Byte.to_N y) 16)
      by discriminate.
    now rewrite H1, H2. }
  pose proof (Byte.of_to_N x) as Hx. pose proof (Byte.of_to_N y) as Hy.
  rewrite E in Hx. congruence.
Qed.

(** X13. Different random bytes give different tokens: the hexadecimal
    rendering loses nothing. *)
Theorem token_injective (a b : list Byte.byte) :
  generateRandomToken a = generateRandomToken b -> a = b.
Proof. apply token_injective_bytes. Qed.

Lemma token_injective_witness :
  [Byte.x00; Byte.xff] = [Byte.x00; Byte.xff].
Proof.
  refine (token_injective [Byte.x00; Byte.xff] [Byte.x00; Byte.xff] _).
  reflexivity.
Defined.

(** ** Patching [.env] *)

Lemma strip_prefix_app (p r : jsstring) : strip_prefix p (p ++ r) = Some r.
Proof.
  induction p as [|c p IH]; [reflexivity|]. simpl. now rewrite N.eqb_refl.
Qed.

Lemma strip_prefix_Some (p s r : jsstring) :
  strip_prefix p s = Some r -> s = p ++ r.
Proof.
  revert s; induction p as [|c p IH]; intros s; simpl.
  - congruence.
  - destruct s as [|d s]; [discriminate|].
    destruct (c =? d) eqn:E; [|discriminate].
    apply N.eqb_eq in E. subst d. intros H. f_equal. now apply IH.
Qed.

Lemma includes_eq (p s : jsstring) :
  includes p s
  = match strip_prefix p s with
    | Some _ => true
    | None => match s with
              | [] => false
              | _ :: s' => includes p s'
              end
    end.
Proof. destruct s; reflexivity. Qed.

Lemma includes_prefix (p r : jsstring) : includes p (p ++ r) = true.
Proof.
  rewrite includes_eq. pose proof (strip_prefix_app p r) as E.
  destruct (strip_prefix p (p ++ r)); [reflexivity | discriminate E].
Qed.

Lemma includes_cons (p : jsstring) (c : char) (s : jsstring) :
  includes p s = true -> includes p (c :: s) = true.
Proof.
  intros H. rewrite includes_eq. destruct (strip_prefix p (c :: s)); auto.
Qed.

Lemma includes_app (p a r : jsstring) : includes p (a ++ p ++ r) = true.
Proof.
  induction a as [|c a IH]; cbn [app]; [apply includes_prefix|].
  now apply includes_cons.
Qed.

Lemma includes_false_cons (p : jsstring) (c : char) (s : jsstring) :
  includes p (c :: s) = false ->
  strip_prefix p (c :: s) = None /\ includes p s = false.
Proof.
  rewrite includes_eq. destruct (strip_prefix p (c :: s)); [discriminate|].
  now split.
Qed.

(** The four steps of the replacement. *)
Lemma replace_at_key (replacement r : jsstring) :
  replaceTokenHash replacement 0 false (API_TOKEN_HASH ++ r)
  = replacement ++ replaceTokenHash replacement 0 true r.
Proof. reflexivity. Qed.

Lemma replace_off_key (replacement : jsstring) (c : char) (s : jsstring) :
  strip_prefix API_TOKEN_HASH (c :: s) = None ->
  replaceTokenHash replacement 0 false (c :: s)
  = c :: replaceTokenHash replacement 0 false s.
Proof. intros H. cbn [replaceTokenHash andb]. now rewrite H. Qed.

Lemma replace_in_line (replacement : jsstring) (c : char) (s : jsstring) :
  isLineTerminator c = false ->
  replaceTokenHash replacement 0 true (c :: s)
  = replaceTokenHash replacement 0 true s.
Proof. intros H. cbn [replaceTokenHash andb]. now rewrite H. Qed.

Lemma replace_end_of_line (replacement : jsstring) (c : char)
    (s : jsstring) :
  isLineTerminator c = true ->
  replaceTokenHash replacement 0 true (c :: s)
  = c :: replaceTokenHash replacement 0 false s.
Proof.
  intros H. cbn [replaceTokenHash andb]. rewrite H. cbn [negb].
  assert (E : strip_prefix API_TOKEN_HASH (c :: s) = None).
  { unfold isLineTerminator in H.
    repeat (apply orb_true_iff in H; destruct H as [H|H]);
      apply N.eqb_eq in H; subst c; reflexivity. }
  now rewrite E.
Qed.

Lemma replace_without_key (replacement s : jsstring) :
  includes API_TOKEN_HASH s = false ->
  replaceTokenHash replacement 0 false s = s.
Proof.
  induction s as [|c s IH]; [reflexivity|]. intros H.
  apply includes_false_cons in H. destruct H as [H1 H2].
  rewrite replace_off_key by assumption. f_equal. now apply IH.
Qed.

Lemma replace_with_key (replacement s : jsstring) :
  includes API_TOKEN_HASH s = true ->
  includes replacement (replaceTokenHash replacement 0 false s) = true.
Proof.
  induction s as [|c s IH]; [discriminate|]. intros H.
  destruct (strip_prefix API_TOKEN_HASH (c :: s)) as [r|] eqn:E.
  - apply strip_prefix_Some in E. rewrite E, replace_at_key.
    apply includes_prefix.
  - rewrite replace_off_key by assumption. apply includes_cons, IH.
    rewrite includes_eq, E in H. exact H.
Qed.

(** X14. After [make:token], [token(deleteMe).txt] holds the token and
    [.env] holds the key followed by this token, whatever [.env] held
    before and whether it was there or not. *)
Theorem makeToken_sets_hash (randomBytes : list Byte.byte)
    (files : token_files) :
  let token := generateRandomToken randomBytes in
  let after := fst (makeToken randomBytes files) in
  token_txt after = Some token
  /\ exists envContent,
       dot_env after = Some envContent
       /\ includes (API_TOKEN_HASH ++ token) envContent = true.
Proof.
  cbv zeta. split; [reflexivity|].
  unfold makeToken. cbn [fst dot_env].
  destruct (token_is_hex_parts randomBytes) as [_ Hesc]. rewrite Hesc.
  set (token := generateRandomToken randomBytes).
  set (env := match dot_env files with Some c => c | None => [] end).
  eexists. split; [reflexivity|].
  destruct (str_eqb _ env) eqn:E.
  - rewrite (app_assoc API_TOKEN_HASH token [LF]). apply includes_app.
  - destruct (includes API_TOKEN_HASH env) eqn:I.
    + now apply replace_with_key.
    + rewrite replace_without_key in E by assumption.
      now rewrite str_eqb_refl in E.
Qed.

(** X15. When [.env] does not hold the key, or is not there,
    [make:token] writes the key, the token and a line feed right after what
    the file held: no line feed is put before the key, so a last line
    without one is continued by the key. *)
Theorem makeToken_appends (randomBytes : list Byte.byte)
    (files : token_files) :
  let envContent := match dot_env files with
                    | Some content => content
                    | None => []
                    end in
  includes API_TOKEN_HASH envContent = false ->
  dot_env (fst (makeToken randomBytes files))
  = Some (envContent ++ API_TOKEN_HASH
          ++ generateRandomToken randomBytes ++ [LF]).
Proof.
  cbv zeta. intros H. unfold makeToken. cbn [fst dot_env].
  destruct (token_is_hex_parts randomBytes) as [_ Hesc]. rewrite Hesc.
  rewrite replace_without_key by assumption.
  now rewrite str_eqb_refl.
Qed.

Lemma makeToken_appends_witness :
  dot_env (fst (makeToken [Byte.x00; Byte.xff]
                  {| dot_env := Some (js "PORT=80"); token_txt := None |}))
  = Some (js "PORT=80API_TOKEN_HASH=00ff" ++ [LF]).
Proof.
  refine (makeToken_appends [Byte.x00; Byte.xff]
            {| dot_env := Some (js "PORT=80"); token_txt := None |} _).
  reflexivity.
Defined.




(** A key that begins in [b] is whole in [b], or [b] is made of code
    units of the key. *)
Lemma strip_prefix_straddle (p : jsstring) :
  forall b x r,
    strip_prefix p (b ++ x) = Some r ->
    (exists r', strip_prefix p b = Some r') \/ (forall c, In c b -> In c p).
Proof.
  induction p as [|c p IH]; intros b x r H.
  - left. now exists b.
  - destruct b as [|d b]; [right; intros ? []|].
    cbn [app strip_prefix] in H |- *.
    destruct (c =? d) eqn:E; [|discriminate].
    apply N.eqb_eq in E. subst d.
    destruct (IH b x r H) as [(r' & Hr)|Hin].
    + left. now exists r'.
    + right. intros e [<-|He]; [now left | right; now apply Hin].
Qed.

Lemma suffix_of_line (a b e : jsstring) (c : char) :
  a ++ c :: b = e ++ [LF] -> In LF (c :: b).
Proof.
  intros H.
  assert (Hne : c :: b <> []) by discriminate.
  pose proof (app_removelast_last c Hne) as L.
  rewrite L, app_assoc in H.
  apply app_inj_tail in H. destruct H as [_ H].
  rewrite L. apply in_or_app. right. left. exact H.
Qed.

(** Past a text that ends its last line and does not hold the key, the
    replacement goes on as from the start. *)
Lemma replace_past (replacement pre x : jsstring) :
  includes API_TOKEN_HASH pre = false ->
  pre = [] \/ (exists e, pre = e ++ [LF]) ->
  replaceTokenHash replacement 0 false (pre ++ x)
  = pre ++ replaceTokenHash replacement 0 false x.
Proof.
  intros Hinc Hend.
  assert (G : forall a b, pre = a ++ b ->
                replaceTokenHash replacement 0 false (b ++ x)
                = b ++ replaceTokenHash replacement 0 false x).
  { intros a b; revert a; induction b as [|c b IH]; intros a Hab;
      [reflexivity|].
    cbn [app]. rewrite replace_off_key.
    - f_equal. apply (IH (a ++ [c])). now rewrite <- app_assoc.
    - destruct (strip_prefix API_TOKEN_HASH (c :: b ++ x)) as [r|] eqn:E;
        [exfalso | reflexivity].
      destruct (strip_prefix_straddle _ (c :: b) x r E) as [(r' & Hr)|Hin].
      + apply strip_prefix_Some in Hr.
        rewrite Hab, Hr, includes_app in Hinc. discriminate Hinc.
      + destruct Hend as [->|(e & ->)].
        * now destruct a.
        * symmetry in Hab. apply suffix_of_line, Hin in Hab.
          vm_compute in Hab. intuition discriminate. }
  exact (G [] pre eq_refl).
Qed.

Lemma replace_rest_of_line (replacement v : jsstring) (c : char)
    (rest : jsstring) :
  forallb (fun d => negb (isLineTerminator d)) v = true ->
  isLineTerminator c = true ->
  replaceTokenHash replacement 0 true (v ++ c :: rest)
  = c :: replaceTokenHash replacement 0 false rest.
Proof.
  intros Hv Hc. induction v as [|d v IH]; cbn [app].
  - now apply replace_end_of_line.
  - cbn [forallb] in Hv. apply andb_true_iff in Hv. destruct Hv as [Hd Hv].
    rewrite replace_in_line by now apply negb_true_iff.
    now apply IH.
Qed.

(** The key on a line of its own, after lines without it. *)
Lemma replace_key_line (replacement pre old post : jsstring) :
  includes API_TOKEN_HASH pre = false ->
  pre = [] \/ (exists e, pre = e ++ [LF]) ->
  forallb (fun d => negb (isLineTerminator d)) old = true ->
  includes API_TOKEN_HASH post = false ->
  replaceTokenHash replacement 0 false
    (pre ++ API_TOKEN_HASH ++ old ++ LF :: post)
  = pre ++ replacement ++ LF :: post.
Proof.
  intros Hpre Hend Hold Hpost.
  rewrite replace_past by assumption.
  rewrite replace_at_key, replace_rest_of_line by (assumption || reflexivity).
  now rewrite replace_without_key by assumption.
Qed.

Lemma makeToken_on_key_line (randomBytes : list Byte.byte)
    (pre old post : jsstring) (txt : option jsstring) :
  includes API_TOKEN_HASH pre = false ->
  pre = [] \/ (exists e, pre = e ++ [LF]) ->
  forallb (fun d => negb (isLineTerminator d)) old = true ->
  includes API_TOKEN_HASH post = false ->
  let token := generateRandomToken randomBytes in
  let envContent := pre ++ API_TOKEN_HASH ++ old ++ LF :: post in
  dot_env (fst (makeToken randomBytes
                  {| dot_env := Some envContent; token_txt := txt |}))
  = Some (if str_eqb old token
          then envContent ++ API_TOKEN_HASH ++ token ++ [LF]
          else pre ++ API_TOKEN_HASH ++ token ++ LF :: post).
Proof.
  intros Hpre Hend Hold Hpost. cbv zeta.
  unfold makeToken. cbn [fst dot_env].
  destruct (token_is_hex_parts randomBytes) as [_ Hesc]. rewrite Hesc.
  set (token := generateRandomToken randomBytes).
  rewrite replace_key_line by assumption. rewrite <- app_assoc.
  assert (T : str_eqb (pre ++ API_TOKEN_HASH ++ token ++ LF :: post)
                (pre ++ API_TOKEN_HASH ++ old ++ LF :: post)
              = str_eqb old token).
  { destruct (str_eqb old token) eqn:E.
    - apply str_eqb_eq in E. subst old. apply str_eqb_refl.
    - apply str_eqb_neq. intros F. apply str_eqb_neq in E. apply E.
      apply app_inv_head in F. apply app_inv_head in F.
      assert (G : token ++ [LF] ++ post = old ++ [LF] ++ post) by exact F.
      rewrite !app_assoc in G. apply app_inv_tail in G.
      apply app_inj_tail in G. destruct G as [G _]. now symmetry. }
  rewrite T. now destruct (str_eqb old token).
Qed.



(** X18. On a [.env] that does not hold the key and ends its last line
    (or is empty, or not there), a second run of [make:token] that draws
    other bytes leaves the file as this run alone would have: the key is
    there once, with the second token. *)
Theorem makeToken_twice (first second : list Byte.byte)
    (files : token_files) :
  let envContent := match dot_env files with
                    | Some content => content
                    | None => []
                    end in
  includes API_TOKEN_HASH envContent = false ->
  envContent = [] \/ (exists e, envContent = e ++ [LF]) ->
  first <> second ->
  dot_env (fst (makeToken second (fst (makeToken first files))))
  = Some (envContent ++ API_TOKEN_HASH
          ++ generateRandomToken second ++ [LF])
  /\ dot_env (fst (makeToken second (fst (makeToken first files))))
     = dot_env (fst (makeToken second files)).
Proof.
  cbv zeta. intros Hinc Hend Hne.
  set (env := match dot_env files with Some c => c | None => [] end) in *.
  assert (E1 : fst (makeToken first files)
               = {| dot_env := Some (env ++ API_TOKEN_HASH
                                     ++ generateRandomToken first
                                     ++ LF :: []);
                    token_txt := Some (generateRandomToken first) |}).
  { unfold makeToken. cbn [fst dot_env]. fold env.
    destruct (token_is_hex_parts first) as [_ Hesc]. rewrite Hesc.
    rewrite replace_without_key by assumption.
    now rewrite str_eqb_refl. }
  assert (E2 : dot_env (fst (makeToken second files))
               = Some (env ++ API_TOKEN_HASH
                       ++ generateRandomToken second ++ [LF])).
  { unfold makeToken. cbn [fst dot_env]. fold env.
    destruct (token_is_hex_parts second) as [_ Hesc]. rewrite Hesc.
    rewrite replace_without_key by assumption.
    now rewrite str_eqb_refl. }
  rewrite E1, E2.
  assert (Hold : forallb (fun d => negb (isLineTerminator d))
                   (generateRandomToken first) = true).
  { destruct (token_is_hex_parts first) as [Hx _].
    rewrite forallb_forall in Hx. apply forallb_forall. intros c Hc.
    apply Hx, isHex_neither in Hc. destruct Hc as [_ ->]. reflexivity. }
  rewrite (makeToken_on_key_line second env (generateRandomToken first) []
             _ Hinc Hend Hold eq_refl).
  destruct (str_eqb _ _) eqn:E; [|now split].
  apply str_eqb_eq, token_injective_bytes in E. contradiction.
Qed.

Lemma makeToken_twice_witness :
  dot_env (fst (makeToken [Byte.xff]
                  (fst (makeToken [Byte.x00]
                          {| dot_env := None; token_txt := None |}))))
  = Some (js "API_TOKEN_HASH=ff" ++ [LF]).
Proof.
  refine (proj1 (makeToken_twice [Byte.x00] [Byte.xff]
                   {| dot_env := None; token_txt := None |} _ _ _)).
  - reflexivity.
  - now left.
  - discriminate.
Defined.

(** * Pascal case *)

Ltac compare_false :=
  first [ apply N.eqb_neq; lia
        | apply andb_false_iff; right; apply N.leb_gt; lia
        | apply andb_false_iff; left; apply N.leb_gt; lia ].

Lemma letter_not_separator (c : char) :
  65 <= c <= 122 -> isSeparator c = false.
Proof.
  intros H. unfold isSeparator, isWhiteSpace, HYPHEN.
  repeat (apply orb_false_iff; split); compare_false.
Qed.

Lemma upperAscii_not_separator (c : char) :
  isSeparator c = false -> isSeparator (upperAscii c) = false.
Proof.
  intros H. unfold upperAscii.
  destruct ((97 <=? c) && (c <=? 122)) eqn:E; [|assumption].
  apply andb_true_iff in E. destruct E as [E1 E2].
  apply N.leb_le in E1. apply N.leb_le in E2.
  apply letter_not_separator. lia.
Qed.

Lemma lowerAscii_not_separator (c : char) :
  isSeparator c = false -> isSeparator (lowerAscii c) = false.
Proof.
  intros H. unfold lowerAscii.
  destruct ((65 <=? c) && (c <=? 90)) eqn:E; [|assumption].
  apply andb_true_iff in E. destruct E as [E1 E2].
  apply N.leb_le in E1. apply N.leb_le in E2.
  apply letter_not_separator. lia.
Qed.

Lemma lowerAscii_upperAscii (c : char) :
  lowerAscii (upperAscii c) = lowerAscii c.
Proof.
  unfold lowerAscii, upperAscii.
  destruct ((97 <=? c) && (c <=? 122)) eqn:E; [|reflexivity].
  apply andb_true_iff in E. destruct E as [E1 E2].
  apply N.leb_le in E1. apply N.leb_le in E2.
  replace ((65 <=? c - 32) && (c - 32 <=? 90)) with true
    by (symmetry; apply andb_true_iff; split; apply N.leb_le; lia).
  replace ((65 <=? c) && (c <=? 90)) with false
    by (symmetry; compare_false).
  lia.
Qed.

Lemma lowerAscii_twice (c : char) : lowerAscii (lowerAscii c) = lowerAscii c.
Proof.
  unfold lowerAscii.
  destruct ((65 <=? c) && (c <=? 90)) eqn:E; [|now rewrite E].
  apply andb_true_iff in E. destruct E as [E1 E2].
  apply N.leb_le in E1. apply N.leb_le in E2.
  replace ((65 <=? c + 32) && (c + 32 <=? 90)) with false
    by (symmetry; compare_false).
  reflexivity.
Qed.

Lemma upperAscii_lowerAscii (c : char) :
  upperAscii (lowerAscii c) = upperAscii c.
Proof.
  unfold lowerAscii, upperAscii.
  destruct ((65 <=? c) && (c <=? 90)) eqn:E; [|reflexivity].
  apply andb_true_iff in E. destruct E as [E1 E2].
  apply N.leb_le in E1. apply N.leb_le in E2.
  replace ((97 <=? c + 32) && (c + 32 <=? 122)) with true
    by (symmetry; apply andb_true_iff; split; apply N.leb_le; lia).
  replace ((97 <=? c) && (c <=? 122)) with false
    by (symmetry; compare_false).
  lia.
Qed.

Lemma upperAscii_isAscii (c : char) :
  isAscii c = true -> isAscii (upperAscii c) = true.
Proof.
  unfold isAscii, upperAscii. intros H. apply N.ltb_lt in H.
  destruct ((97 <=? c) && (c <=? 122)); apply N.ltb_lt; lia.
Qed.

Lemma lowerAscii_isAscii (c : char) :
  isAscii c = true -> isAscii (lowerAscii c) = true.
Proof.
  unfold isAscii, lowerAscii. intros H. apply N.ltb_lt in H.
  destruct ((65 <=? c) && (c <=? 90)) eqn:E; apply N.ltb_lt; [|lia].
  apply andb_true_iff in E. destruct E as [_ E2].
  apply N.leb_le in E2. lia.
Qed.

(** ** The fields of a name *)

Lemma splitRuns_not_nil (inRun : bool) (s : jsstring) :
  splitRuns inRun s <> [].
Proof.
  revert inRun; induction s as [|c s IH]; intros inRun; simpl;
    [discriminate|].
  destruct (isSeparator c).
  - destruct inRun; [apply IH | discriminate].
  - destruct (splitRuns false s); discriminate.
Qed.

(** The fields, put end to end, are the name without its separators. *)
Lemma splitRuns_concat (inRun : bool) (s : jsstring) :
  List.concat (splitRuns inRun s)
  = filter (fun c => negb (isSeparator c)) s.
Proof.
  revert inRun; induction s as [|c s IH]; intros inRun; simpl;
    [reflexivity|].
  destruct (isSeparator c); simpl.
  - destruct inRun; simpl; apply IH.
  - specialize (IH false).
    destruct (splitRuns false s) as [|w ws]; simpl in *; now rewrite <- IH.
Qed.

Lemma splitRuns_In (inRun : bool) (s w : jsstring) (c : char) :
  In w (splitRuns inRun s) -> In c w -> In c s /\ isSeparator c = false.
Proof.
  intros Hw Hc.
  assert (H : In c (List.concat (splitRuns inRun s)))
    by (apply in_concat; eauto).
  rewrite splitRuns_concat in H. apply filter_In in H.
  destruct H as [H1 H2]. split; [assumption|].
  now apply negb_true_iff in H2.
Qed.

Lemma splitRuns_word (s : jsstring) :
  forallb (fun c => negb (isSeparator c)) s = true ->
  splitRuns false s = [s].
Proof.
  induction s as [|c s IH]; [reflexivity|]. cbn [forallb].
  intros H. apply andb_true_iff in H. destruct H as [Hc Hs].
  apply negb_true_iff in Hc. cbn [splitRuns]. rewrite Hc.
  now rewrite IH.
Qed.

Lemma splitRuns_blank (s : jsstring) :
  forallb isSeparator s = true ->
  forall inRun w, In w (splitRuns inRun s) -> w = [].
Proof.
  induction s as [|c s IH]; intros H inRun w Hw.
  - destruct Hw as [<-|[]]. reflexivity.
  - cbn [forallb] in H. apply andb_true_iff in H. destruct H as [Hc Hs].
    cbn [splitRuns] in Hw. rewrite Hc in Hw.
    destruct inRun.
    + now apply (IH Hs true).
    + destruct Hw as [<-|Hw]; [reflexivity | now apply (IH Hs true)].
Qed.

Section PascalCaseOfAscii.
Variable toUpperCase toLowerCase : jsstring -> jsstring.

(** On a string of ASCII code units the case mappings work code unit by
    code unit, on the letters only. *)
Hypothesis toUpperCase_ascii :
  forall s, forallb isAscii s = true -> toUpperCase s = map upperAscii s.
Hypothesis toLowerCase_ascii :
  forall s, forallb isAscii s = true -> toLowerCase s = map lowerAscii s.

Lemma capitalize_ascii (w : jsstring) :
  forallb isAscii w = true ->
  capitalize toUpperCase toLowerCase w
  = map upperAscii (charAt0 w) ++ map lowerAscii (slice1 w).
Proof.
  intros H. unfold capitalize.
  rewrite toUpperCase_ascii, toLowerCase_ascii;
    [reflexivity | |]; destruct w as [|c w]; try reflexivity;
    cbn [forallb] in H; apply andb_true_iff in H; destruct H as [Hc Hw].
  - exact Hw.
  - cbn. now rewrite Hc.
Qed.

Lemma fields_ascii (s : jsstring) :
  forallb isAscii s = true ->
  forall w, In w (splitRuns false s) -> forallb isAscii w = true.
Proof.
  intros H w Hw. apply forallb_forall. intros c Hc.
  rewrite forallb_forall in H. apply H.
  exact (proj1 (splitRuns_In _ _ _ _ Hw Hc)).
Qed.

Lemma toPascalCase_ascii_eq (s : jsstring) :
  forallb isAscii s = true ->
  toPascalCase toUpperCase toLowerCase s
  = List.concat
      (map (fun w => map upperAscii (charAt0 w) ++ map lowerAscii (slice1 w))
         (splitRuns false s)).
Proof.
  intros H. unfold toPascalCase. f_equal. apply map_ext_in.
  intros w Hw. apply capitalize_ascii. now apply (fields_ascii s).
Qed.

Lemma toPascalCase_lower (s : jsstring) :
  forallb isAscii s = true ->
  map lowerAscii (toPascalCase toUpperCase toLowerCase s)
  = map lowerAscii (filter (fun c => negb (isSeparator c)) s).
Proof.
  intros H. rewrite toPascalCase_ascii_eq by assumption.
  rewrite <- (splitRuns_concat false s), !concat_map, map_map.
  f_equal. apply map_ext. intros w.
  destruct w as [|c w]; [reflexivity|]. cbn [charAt0 slice1 map app].
  rewrite lowerAscii_upperAscii. f_equal.
  rewrite map_map. apply map_ext. intros d. apply lowerAscii_twice.
Qed.

Lemma toPascalCase_code_units (s : jsstring) (c : char) :
  forallb isAscii s = true ->
  In c (toPascalCase toUpperCase toLowerCase s) ->
  isSeparator c = false /\ isAscii c = true.
Proof.
  intros H Hc. rewrite toPascalCase_ascii_eq in Hc by assumption.
  apply in_concat in Hc. destruct Hc as (x & Hx & Hc).
  apply in_map_iff in Hx. destruct Hx as (w & <- & Hw).
  assert (G : forall d, In d w -> isSeparator d = false /\ isAscii d = true).
  { intros d Hd. split.
    - exact (proj2 (splitRuns_In _ _ _ _ Hw Hd)).
    - pose proof (fields_ascii s H w Hw) as Ha.
      rewrite forallb_forall in Ha. now apply Ha. }
  apply in_app_or in Hc. destruct Hc as [Hc|Hc];
    apply in_map_iff in Hc; destruct Hc as (d & <- & Hd).
  - destruct w as [|e w]; [destruct Hd|]. destruct Hd as [<-|[]].
    destruct (G e (or_introl eq_refl)) as [G1 G2].
    split; [now apply upperAscii_not_separator
           | now apply upperAscii_isAscii].
  - destruct w as [|e w]; [destruct Hd|].
    destruct (G d (or_intror Hd)) as [G1 G2].
    split; [now apply lowerAscii_not_separator
           | now apply lowerAscii_isAscii].
Qed.

(** X19. For a name of ASCII code units, [toPascalCase] gives the name
    without its white space and hyphens, up to the case of the letters: as
    many code units, the same ones once all are lowered. *)
Theorem toPascalCase_drops_separators (str : jsstring) :
  forallb isAscii str = true ->
  let name := toPascalCase toUpperCase toLowerCase str in
  let kept := filter (fun c => negb (isSeparator c)) str in
  map lowerAscii name = map lowerAscii kept
  /\ List.length name = List.length kept.
Proof.
  intros H name kept.
  pose proof (toPascalCase_lower str H) as E. split; [exact E|].
  apply (f_equal (@List.length char)) in E.
  now rewrite !length_map in E.
Qed.

(** X20. For a name of ASCII code units, the result of [toPascalCase]
    holds no white space and no hyphen, and so do the paths of the files
    that [kafka:consumer] and [kafka:producer] write. *)
Theorem generated_names_without_separators (answers_name : jsstring) :
  forallb isAscii answers_name = true ->
  forallb (fun c => negb (isSeparator c))
    (toPascalCase toUpperCase toLowerCase answers_name) = true
  /\ forallb (fun c => negb (isSeparator c))
       (consumerFile toUpperCase toLowerCase answers_name) = true
  /\ forallb (fun c => negb (isSeparator c))
       (producerFile toUpperCase toLowerCase answers_name) = true.
Proof.
  intros H.
  assert (G : forallb (fun c => negb (isSeparator c))
                (toPascalCase toUpperCase toLowerCase answers_name) = true).
  { apply forallb_forall. intros c Hc. apply negb_true_iff.
    exact (proj1 (toPascalCase_code_units _ _ H Hc)). }
  split; [exact G|].
  unfold consumerFile, producerFile. cbv zeta.
  rewrite !forallb_app, G. split; reflexivity.
Qed.

(** X21. A name made of white space and hyphens only, the empty name
    among them, becomes the empty identifier: the consumer is then written
    to [Http/Consumer/.consumer.js] and the producer to
    [Http/Producer/.producer.js]. *)
Theorem toPascalCase_blank (answers_name : jsstring) :
  forallb isSeparator answers_name = true ->
  toPascalCase toUpperCase toLowerCase answers_name = []
  /\ consumerFile toUpperCase toLowerCase answers_name
     = js "Http/Consumer/.consumer.js"
  /\ producerFile toUpperCase toLowerCase answers_name
     = js "Http/Producer/.producer.js".
Proof.
  intros H.
  assert (G : toPascalCase toUpperCase toLowerCase answers_name = []).
  { unfold toPascalCase.
    assert (F : forall l, (forall w, In w l -> w = []) ->
                  List.concat (map (capitalize toUpperCase toLowerCase) l)
                  = []).
    { induction l as [|w l IH]; intros Hl; [reflexivity|].
      cbn [map List.concat]. rewrite (Hl w (or_introl eq_refl)).
      rewrite capitalize_ascii by reflexivity.
      apply IH. intros x Hx. apply Hl. now right. }
    apply F. intros w Hw. exact (splitRuns_blank _ H false w Hw). }
  split; [exact G|].
  unfold consumerFile, producerFile. cbv zeta. rewrite G.
  split; reflexivity.
Qed.

Lemma toPascalCase_word (s : jsstring) :
  forallb isAscii s = true ->
  forallb (fun c => negb (isSeparator c)) s = true ->
  toPascalCase toUpperCase toLowerCase s
  = map upperAscii (charAt0 s) ++ map lowerAscii (slice1 s).
Proof.
  intros Ha Hs. rewrite toPascalCase_ascii_eq by assumption.
  rewrite splitRuns_word by assumption. cbn [map List.concat].
  apply app_nil_r.
Qed.

Lemma toPascalCase_twice (str : jsstring) :
  forallb isAscii str = true ->
  let kept := filter (fun c => negb (isSeparator c)) str in
  toPascalCase toUpperCase toLowerCase
    (toPascalCase toUpperCase toLowerCase str)
  = map upperAscii (charAt0 kept) ++ map lowerAscii (slice1 kept).
Proof.
  intros H kept.
  set (name := toPascalCase toUpperCase toLowerCase str).
  assert (Hn : forall c, In c name ->
                 isSeparator c = false /\ isAscii c = true)
    by (intros c Hc; now apply (toPascalCase_code_units str)).
  rewrite toPascalCase_word.
  - pose proof (toPascalCase_lower str H) as E. fold name kept in E.
    destruct name as [|c name], kept as [|d kept]; try discriminate E;
      [reflexivity|].
    cbn [map] in E. injection E as E1 E2.
    cbn [charAt0 slice1 map app]. f_equal.
    + now rewrite <- upperAscii_lowerAscii, E1, upperAscii_lowerAscii.
    + exact E2.
  - apply forallb_forall. intros c Hc. now apply Hn.
  - apply forallb_forall. intros c Hc. apply negb_true_iff. now apply Hn.
Qed.

Lemma splitRuns_after_word (u x : jsstring) :
  forallb (fun c => negb (isSeparator c)) u = true ->
  splitRuns false (u ++ x)
  = match splitRuns false x with
    | [] => [u]
    | w :: ws => (u ++ w) :: ws
    end.
Proof.
  induction u as [|c u IH]; intros H.
  - cbn [app]. pose proof (splitRuns_not_nil false x) as Hne.
    destruct (splitRuns false x); [congruence | reflexivity].
  - cbn [forallb] in H. apply andb_true_iff in H. destruct H as [Hc Hu].
    apply negb_true_iff in Hc. cbn [app splitRuns]. rewrite Hc, (IH Hu).
    pose proof (splitRuns_not_nil false x) as Hne.
    destruct (splitRuns false x); [congruence | reflexivity].
Qed.

Lemma splitRuns_two_words (u v : jsstring) (d : char) :
  forallb (fun c => negb (isSeparator c)) u = true ->
  forallb (fun c => negb (isSeparator c)) (d :: v) = true ->
  splitRuns false (u ++ SPACE :: d :: v) = [u; d :: v].
Proof.
  intros Hu Hv. rewrite splitRuns_after_word by assumption.
  pose proof (splitRuns_word (d :: v) Hv) as E.
  cbn [forallb] in Hv. apply andb_true_iff in Hv. destruct Hv as [Hd _].
  apply negb_true_iff in Hd.
  change (splitRuns false (SPACE :: d :: v))
    with ([] :: splitRuns true (d :: v)).
  cbn [splitRuns] in E |- *. rewrite Hd in E |- *. rewrite E.
  now rewrite app_nil_r.
Qed.

Lemma letter_case_differs (d : char) :
  65 <= d <= 90 \/ 97 <= d <= 122 -> lowerAscii d <> upperAscii d.
Proof.
  intros H. unfold lowerAscii, upperAscii.
  destruct ((65 <=? d) && (d <=? 90)) eqn:E1;
    destruct ((97 <=? d) && (d <=? 122)) eqn:E2;
    try (apply andb_true_iff in E1; destruct E1 as [A1 A2];
         apply N.leb_le in A1; apply N.leb_le in A2);
    try (apply andb_true_iff in E2; destruct E2 as [B1 B2];
         apply N.leb_le in B1; apply N.leb_le in B2);
    try lia.
  exfalso. destruct H as [[H1 H2]|[H1 H2]].
  - apply andb_false_iff in E1.
    destruct E1 as [E1|E1]; apply N.leb_gt in E1; lia.
  - apply andb_false_iff in E2.
    destruct E2 as [E2|E2]; apply N.leb_gt in E2; lia.
Qed.

(** X22. On a name of ASCII code units without white space or hyphen,
    [toPascalCase] raises the first letter and lowers all the others,
    capitals inside the name included.  So a second application undoes the
    capitals that the first one put at the head of the words: it gives the
    name without its separators, first letter raised, all others lowered.
    Hence [toPascalCase] is not idempotent: on any two words of ASCII code
    units with a space between them, the second beginning with a letter, the
    second application gives another string than the first. *)
Theorem toPascalCase_one_word (str : jsstring) :
  forallb isAscii str = true ->
  let kept := filter (fun c => negb (isSeparator c)) str in
  (kept = str ->
   toPascalCase toUpperCase toLowerCase str
   = map upperAscii (charAt0 str) ++ map lowerAscii (slice1 str))
  /\ toPascalCase toUpperCase toLowerCase
       (toPascalCase toUpperCase toLowerCase str)
     = map upperAscii (charAt0 kept) ++ map lowerAscii (slice1 kept)
  /\ (forall (e : char) (u : jsstring) (d : char) (v : jsstring),
        str = (e :: u) ++ SPACE :: d :: v ->
        forallb (fun c => negb (isSeparator c)) (e :: u) = true ->
        forallb (fun c => negb (isSeparator c)) (d :: v) = true ->
        65 <= d <= 90 \/ 97 <= d <= 122 ->
        toPascalCase toUpperCase toLowerCase
          (toPascalCase toUpperCase toLowerCase str)
        <> toPascalCase toUpperCase toLowerCase str).
Proof.
  intros H kept. split; [|split].
  - intros E. apply toPascalCase_word; [assumption|]. rewrite <- E.
    apply forallb_forall. intros c Hc. unfold kept in Hc.
    now apply filter_In in Hc.
  - now apply toPascalCase_twice.
  - intros e u d v E Hu Hv Hd.
    rewrite (toPascalCase_twice str H).
    rewrite (toPascalCase_ascii_eq str H).
    subst str. rewrite splitRuns_two_words by assumption.
    assert (K : filter (fun c => negb (isSeparator c))
                  ((e :: u) ++ SPACE :: d :: v)
                = (e :: u) ++ d :: v).
    { rewrite filter_app.
      rewrite (filter_id _ (e :: u))
        by (apply Forall_forall; now apply forallb_forall).
      f_equal.
      change (filter _ (SPACE :: d :: v))
        with (filter (fun c => negb (isSeparator c)) (d :: v)).
      apply filter_id, Forall_forall. now apply forallb_forall. }
    rewrite K.
    cbn [app charAt0 slice1 map List.concat]. rewrite map_app.
    cbn [map]. rewrite app_nil_r. intros F.
    injection F as F. apply app_inv_head in F. injection F as F.
    now apply (letter_case_differs d).
Qed.
End PascalCaseOfAscii.

(** ** Pascal case on the ASCII case mappings *)

Lemma toPascalCase_drops_separators_witness :
  map lowerAscii
    (toPascalCase toUpperCaseAscii toLowerCaseAscii
       (js " order-events  Handler "))
  = js "ordereventshandler".
Proof.
  refine (proj1 (toPascalCase_drops_separators
                   toUpperCaseAscii toLowerCaseAscii
                   (fun s _ => eq_refl) (fun s _ => eq_refl)
                   (js " order-events  Handler ") _)).
  reflexivity.
Defined.

Lemma generated_names_without_separators_witness :
  forallb (fun c => negb (isSeparator c))
    (consumerFile toUpperCaseAscii toLowerCaseAscii (js "order events"))
  = true.
Proof.
  refine (proj1 (proj2 (generated_names_without_separators
                          toUpperCaseAscii toLowerCaseAscii
                          (fun s _ => eq_refl) (fun s _ => eq_refl)
                          (js "order events") _))).
  reflexivity.
Defined.

Lemma toPascalCase_blank_witness :
  consumerFile toUpperCaseAscii toLowerCaseAscii (js " - ")
  = js "Http/Consumer/.consumer.js".
Proof.
  refine (proj1 (proj2 (toPascalCase_blank
                          toUpperCaseAscii toLowerCaseAscii
                          (fun s _ => eq_refl) (fun s _ => eq_refl)
                          (js " - ") _))).
  reflexivity.
Defined.

Lemma toPascalCase_one_word_witness :
  toPascalCase toUpperCaseAscii toLowerCaseAscii (js "myConsumer")
  = js "Myconsumer"
  /\ toPascalCase toUpperCaseAscii toLowerCaseAscii
       (toPascalCase toUpperCaseAscii toLowerCaseAscii (js "my consumer"))
     <> toPascalCase toUpperCaseAscii toLowerCaseAscii (js "my consumer").
Proof.
  split.
  - refine (proj1 (toPascalCase_one_word
                     toUpperCaseAscii toLowerCaseAscii
                     (fun s _ => eq_refl) (fun s _ => eq_refl)
                     (js "myConsumer") _) _); reflexivity.
  - refine (proj2 (proj2 (toPascalCase_one_word
                            toUpperCaseAscii toLowerCaseAscii
                            (fun s _ => eq_refl) (fun s _ => eq_refl)
                            (js "my consumer") _))
              109 (js "y") 99 (js "onsumer") _ _ _ _).
    + reflexivity.
    + reflexivity.
    + reflexivity.
    + reflexivity.
    + right. split; intros F; discriminate F.
Defined.
